(** * bb-storage: cloud bucket backend, CAS gRPC server and the
      BlobAccess-backed ContentAddressableStorage

    A shallow embedding of

    - [pkg/blobstore/cloud_blob_access.go]  (module [Cloud]),
    - the gRPC ContentAddressableStorage server  (module [Server]),
    - the BlobAccess-backed ContentAddressableStorage  (module [BlobCAS]),

    with effects written in an explicit state-passing style: every call on
    an external collaborator (the cloud bucket, a BlobAccess, a directory)
    is a step of a state monad that also appends to a log of calls, so that
    statements about *which* calls are made, and in which order, can be
    read off the final state. *)

From Stdlib Require Import ZArith Lia.
From stdpp Require Import base option list gmap sets strings pretty.

Local Open Scope Z_scope.

(** ** State-passing computations *)

Definition State (S A : Type) : Type := S → A * S.

Definition ret {S A : Type} (a : A) : State S A := λ s, (a, s).

Definition bind {S A B : Type} (m : State S A) (k : A → State S B) : State S B :=
  λ s, k (m s).1 (m s).2.

Definition modify {S : Type} (f : S → S) : State S unit := λ s, (tt, f s).

Definition gets {S A : Type} (f : S → A) : State S A := λ s, (f s, s).

Notation "x <- m ;; k" := (bind m (λ x, k))
  (at level 100, m at next level, right associativity, only parsing).
Notation "m ;;; k" := (bind m (λ _, k))
  (at level 100, right associativity, only parsing).

(** ** Errors

    Go's [error] values, as far as the code looks inside them: gRPC status
    errors made by [status.Errorf], errors of the cloud SDK that carry a
    [gcerrors] code, the two context errors, and any other error, known by
    its text. *)

(** [codes.Code] of google.golang.org/grpc. *)
Inductive Code :=
  | OK | Canceled | Unknown | InvalidArgument | DeadlineExceeded | NotFound
  | AlreadyExists | PermissionDenied | ResourceExhausted | FailedPrecondition
  | Aborted | OutOfRange | Unimplemented | Internal | Unavailable | DataLoss
  | Unauthenticated.

(** [gcerrors.ErrorCode] of gocloud.dev. *)
Inductive GcCode :=
  | GcOK | GcUnknown | GcNotFound | GcAlreadyExists | GcInvalidArgument
  | GcInternal | GcUnimplemented | GcFailedPrecondition | GcPermissionDenied
  | GcResourceExhausted | GcCanceled | GcDeadlineExceeded.

Inductive Error :=
  | StatusErr (c : Code) (msg : string)
  | CloudErr (c : GcCode) (text : string)
  | ContextCanceled
  | ContextDeadlineExceeded
  | PlainErr (text : string).

#[global] Instance Code_eq_dec : EqDecision Code.
Proof. solve_decision. Defined.
#[global] Instance GcCode_eq_dec : EqDecision GcCode.
Proof. solve_decision. Defined.
#[global] Instance Error_eq_dec : EqDecision Error.
Proof. solve_decision. Defined.

Definition Code_String (c : Code) : string :=
  match c with
  | OK => "OK" | Canceled => "Canceled" | Unknown => "Unknown"
  | InvalidArgument => "InvalidArgument"
  | DeadlineExceeded => "DeadlineExceeded" | NotFound => "NotFound"
  | AlreadyExists => "AlreadyExists" | PermissionDenied => "PermissionDenied"
  | ResourceExhausted => "ResourceExhausted"
  | FailedPrecondition => "FailedPrecondition" | Aborted => "Aborted"
  | OutOfRange => "OutOfRange" | Unimplemented => "Unimplemented"
  | Internal => "Internal" | Unavailable => "Unavailable"
  | DataLoss => "DataLoss" | Unauthenticated => "Unauthenticated"
  end.

(** [err.Error()]. *)
Definition Error_Error (e : Error) : string :=
  match e with
  | StatusErr c msg => "rpc error: code = " +:+ Code_String c +:+ " desc = " +:+ msg
  | CloudErr _ text => text
  | ContextCanceled => "context canceled"
  | ContextDeadlineExceeded => "context deadline exceeded"
  | PlainErr text => text
  end.

(** [gcerrors.Code(err)] for a non-nil error. *)
Definition gcerrors_Code (e : Error) : GcCode :=
  match e with
  | CloudErr c _ => c
  | ContextCanceled => GcCanceled
  | ContextDeadlineExceeded => GcDeadlineExceeded
  | StatusErr _ _ | PlainErr _ => GcUnknown
  end.

(** The gRPC classification of an error: the code [status.Code(err)] reads. *)
Definition status_Code (e : Error) : Code :=
  match e with
  | StatusErr c _ => c
  | _ => Unknown
  end.

(** [google.rpc.Status], without the details that this code never sets. *)
Record Status := { st_code : Code; st_message : string }.

#[global] Instance Status_eq_dec : EqDecision Status.
Proof. solve_decision. Defined.

(** [status.Convert(err).Proto()]; [None] is Go's nil error. *)
Definition status_Convert (err : option Error) : Status :=
  match err with
  | None => {| st_code := OK; st_message := "" |}
  | Some (StatusErr c msg) => {| st_code := c; st_message := msg |}
  | Some e => {| st_code := Unknown; st_message := Error_Error e |}
  end.

(** ** Digests *)

Record Digest := { instanceName : string; hashHex : string; sizeBytes : Z }.

#[global] Instance Digest_eq_dec : EqDecision Digest.
Proof. solve_decision. Defined.

#[global] Instance Digest_countable : Countable Digest.
Proof.
  refine (inj_countable'
            (λ d, (instanceName d, hashHex d, sizeBytes d))
            (λ t, {| instanceName := t.1.1; hashHex := t.1.2; sizeBytes := t.2 |}) _).
  by intros [].
Defined.

(** [digest.GetSizeBytes()]. *)
Definition GetSizeBytes (d : Digest) : Z := sizeBytes d.

(** [remoteexecution.Digest], the wire form of a digest. *)
Record DigestProto := { Hash : string; SizeBytes : Z }.

#[global] Instance DigestProto_eq_dec : EqDecision DigestProto.
Proof. solve_decision. Defined.

(** Modelled from the spec: the hash lengths [pkg/digest] accepts, which
    is not among the sources. The hash length selects the digest function
    (MD5/SHA-1/SHA-256/SHA-384/SHA-512), whose hexadecimal forms have 32,
    40, 64, 96 and 128 characters. *)
Definition valid_hash_length (n : nat) : bool :=
  bool_decide (n ∈ [32; 40; 64; 96; 128]%nat).

(** Modelled from the spec: [digest.NewDigestFromPartialDigest] of
    [pkg/digest], which is not among the sources. Construction validates
    hash length and non-negative size. A nil pointer has no hash, so it
    is refused as well. *)
Definition NewDigestFromPartialDigest (instance : string) (p : option DigestProto)
  : Error + Digest :=
  match p with
  | None => inl (StatusErr InvalidArgument "No digest provided")
  | Some p =>
      if negb (valid_hash_length (String.length (Hash p))) then
        inl (StatusErr InvalidArgument
               ("Unknown digest hash length: " +:+ pretty (String.length (Hash p))
                +:+ " characters"))
      else if SizeBytes p <? 0 then
        inl (StatusErr InvalidArgument
               ("Invalid digest size: " +:+ pretty (SizeBytes p) +:+ " bytes"))
      else
        inr {| instanceName := instance; hashHex := Hash p; sizeBytes := SizeBytes p |}
  end.

(** Modelled from the spec: [Digest.GetPartialDigest] of [pkg/digest],
    which is not among the sources: a partial digest projection (hash-hex
    + size, instance stripped, for wire use). *)
Definition GetPartialDigest (d : Digest) : DigestProto :=
  {| Hash := hashHex d; SizeBytes := sizeBytes d |}.

(** Modelled from the spec: [digest.Set] of [pkg/digest], which is not
    among the sources: an unordered set of digests built via a builder
    ([∅], then [Add]), whose [Items()] come in a deterministic order. *)
Abbreviation DigestSet := (gset Digest).

(** Modelled from the spec: [Set.Items()], the digests of the set, each
    once. *)
Definition Items (s : DigestSet) : list Digest := elements s.

(** ** Storage types *)

Inductive StorageType := CAS | AC.

(** Modelled from the spec: [StorageType.GetDigestKey] of [pkg/blobstore],
    which is not among the sources. The CAS key is the hexadecimal hash, a
    dash and the size in decimal; the AC key is the instance name and a
    slash before the same. *)
Definition GetDigestKey (st : StorageType) (d : Digest) : string :=
  match st with
  | CAS => hashHex d +:+ "-" +:+ pretty (sizeBytes d)
  | AC => instanceName d +:+ "/" +:+ hashHex d +:+ "-" +:+ pretty (sizeBytes d)
  end.

(** ** Byte streams and buffers *)

Abbreviation bytes := (list Byte.byte).

(** What an [io.Reader] yields when read to its end: the chunks of
    successive reads, then EOF ([None]) or a read error. *)
Record Stream := { chunks : list bytes; final : option Error }.

(** [*blob.Reader]: a reader on the object stored at a key. *)
Record BlobReader := { rd_key : string; rd_content : bytes }.

(** The constructors of [pkg/blobstore/buffer] that the sources call. The
    repair function of [buffer.Reparable] is a closure over the backend it
    came from: a computation on that backend's state [W]. *)
Inductive RepairStrategy (W : Type) :=
  | UserProvided
  | Reparable (d : Digest) (repairFunc : State W (option Error)).

Inductive Buffer (W : Type) :=
  | NewBufferFromError (err : Error)
  | NewBufferFromReader (st : StorageType) (d : Digest) (r : BlobReader)
                        (repair : RepairStrategy W)
  | NewCASBufferFromByteSlice (d : Digest) (data : bytes)
                              (repair : RepairStrategy W).

Arguments UserProvided {W}.
Arguments Reparable {W} d repairFunc.
Arguments NewBufferFromError {W} err.
Arguments NewBufferFromReader {W} st d r repair.
Arguments NewCASBufferFromByteSlice {W} d data repair.

(** ** The BlobAccess interface

    [context.Context] values are names of entries in a table of contexts
    kept by whoever can cancel them. A backend is the three operations
    over the state [W] of whatever it stores into. *)

Abbreviation Context := nat.

Record BlobAccess (W : Type) := {
  ba_Get : Context → Digest → State W (Buffer W);
  ba_Put : Context → Digest → Buffer W → State W (option Error);
  ba_FindMissing : Context → DigestSet → State W (DigestSet * option Error);
}.

Arguments ba_Get {W} _ _ _.
Arguments ba_Put {W} _ _ _ _.
Arguments ba_FindMissing {W} _ _ _.

(** ** The modelled helpers on concrete values *)

Example GetDigestKey_CAS :
  GetDigestKey CAS {| instanceName := "main"; hashHex := "8b1a9953c4611296a827abf8c47804d7";
                      sizeBytes := 5 |}
  = "8b1a9953c4611296a827abf8c47804d7-5".
Proof. reflexivity. Qed.

Example GetDigestKey_AC :
  GetDigestKey AC {| instanceName := "main"; hashHex := "8b1a9953c4611296a827abf8c47804d7";
                     sizeBytes := 5 |}
  = "main/8b1a9953c4611296a827abf8c47804d7-5".
Proof. reflexivity. Qed.

Example NewDigestFromPartialDigest_short_hash :
  NewDigestFromPartialDigest "main" (Some {| Hash := "8b1a"; SizeBytes := 5 |})
  = inl (StatusErr InvalidArgument "Unknown digest hash length: 4 characters").
Proof. reflexivity. Qed.

Example NewDigestFromPartialDigest_negative_size :
  NewDigestFromPartialDigest "main"
    (Some {| Hash := "8b1a9953c4611296a827abf8c47804d7"; SizeBytes := -1 |})
  = inl (StatusErr InvalidArgument "Invalid digest size: -1 bytes").
Proof. reflexivity. Qed.

Example status_Convert_plain_error :
  status_Convert (Some (PlainErr "connection reset"))
  = {| st_code := Unknown; st_message := "connection reset" |}.
Proof. reflexivity. Qed.

(** * The cloud bucket backend ([cloud_blob_access.go]) *)

Module Cloud.

(** ** The bucket ([gocloud.dev/blob]) and contexts

    The bucket is an external collaborator. It is modelled by the objects
    it holds, a table of contexts (a context is cancelled or live), and the
    log of the calls made on it. Failures of the provider are injected by
    an oracle [Faults], over which every statement is quantified. *)

Inductive Event :=
  | EvNewReader (key : string)
  | EvExists (key : string)
  | EvDelete (key : string)
  | EvWithCancel (parent child : Context)
  | EvNewWriter (ctx : Context) (key : string)
  | EvWrite (key : string) (chunk : bytes)
  | EvWriterClose (key : string)
  | EvCancel (ctx : Context)
  | EvReaderClose.

Record World := {
  objects : gmap string bytes;
  ctxs : list bool;
  trace : list Event;
}.

Record Faults := {
  f_reader : string → option Error;
  f_exists : string → option Error;
  f_delete : string → option Error;
  f_writer : string → option Error;
  f_write : string → bytes → bytes → option Error;
  f_close : string → option Error;
}.

(** [*blob.Writer]: the key it writes, the context it was opened with and
    the bytes accepted so far. *)
Record Writer := { w_key : string; w_ctx : Context; w_buf : bytes }.

Definition log (e : Event) : State World unit :=
  modify (λ w, {| objects := objects w; ctxs := ctxs w; trace := trace w ++ [e] |}).

Definition set_objects (f : gmap string bytes → gmap string bytes) : State World unit :=
  modify (λ w, {| objects := f (objects w); ctxs := ctxs w; trace := trace w |}).

Definition set_ctxs (f : list bool → list bool) : State World unit :=
  modify (λ w, {| objects := objects w; ctxs := f (ctxs w); trace := trace w |}).

(** A context is cancelled when the table says so; one that was never
    derived with [context_WithCancel] (the caller's) is live unless
    recorded otherwise. *)
Definition is_cancelled (cs : list bool) (ctx : Context) : bool :=
  default false (cs !! ctx).

(** [context.WithCancel(parent)]: a fresh context, cancelled from the
    start when its parent is. *)
Definition context_WithCancel (parent : Context) : State World Context :=
  child <- gets (λ w, length (ctxs w)) ;;
  set_ctxs (λ cs, cs ++ [is_cancelled cs parent]) ;;;
  log (EvWithCancel parent child) ;;;
  ret child.

(** The [cancel] function that [context.WithCancel] returns. *)
Definition cancel (ctx : Context) : State World unit :=
  set_ctxs (λ cs, <[ctx := true]> cs) ;;;
  log (EvCancel ctx).

Section Bucket.
Variable F : Faults.

Definition not_found (key : string) : Error :=
  CloudErr GcNotFound ("blob (key " +:+ key +:+ ") (code=NotFound): blob not found").

(** What [bucket.Exists] answers for a key. *)
Definition exists_answer (objs : gmap string bytes) (key : string) : Error + bool :=
  match f_exists F key with
  | Some e => inl e
  | None => inr (bool_decide (is_Some (objs !! key)))
  end.

Definition bucket_Exists (ctx : Context) (key : string) : State World (Error + bool) :=
  log (EvExists key) ;;;
  gets (λ w, exists_answer (objects w) key).

Definition reader_answer (objs : gmap string bytes) (key : string) : Error + BlobReader :=
  match f_reader F key with
  | Some e => inl e
  | None =>
      match objs !! key with
      | Some data => inr {| rd_key := key; rd_content := data |}
      | None => inl (not_found key)
      end
  end.

Definition bucket_NewReader (ctx : Context) (key : string)
  : State World (Error + BlobReader) :=
  log (EvNewReader key) ;;;
  gets (λ w, reader_answer (objects w) key).

Definition bucket_Delete (ctx : Context) (key : string) : State World (option Error) :=
  log (EvDelete key) ;;;
  match f_delete F key with
  | Some e => ret (Some e)
  | None =>
      present <- gets (λ w, bool_decide (is_Some (objects w !! key))) ;;
      if (present : bool) then set_objects (delete key) ;;; ret None
      else ret (Some (not_found key))
  end.

Definition bucket_NewWriter (ctx : Context) (key : string)
  : State World (Error + Writer) :=
  log (EvNewWriter ctx key) ;;;
  match f_writer F key with
  | Some e => ret (inl e)
  | None => ret (inr {| w_key := key; w_ctx := ctx; w_buf := [] |})
  end.

Definition writer_Write (w : Writer) (chunk : bytes) : State World (Error + Writer) :=
  log (EvWrite (w_key w) chunk) ;;;
  match f_write F (w_key w) (w_buf w) chunk with
  | Some e => ret (inl e)
  | None => ret (inr {| w_key := w_key w; w_ctx := w_ctx w; w_buf := w_buf w ++ chunk |})
  end.

(** [w.Close()]: the object becomes visible under the key only here, and
    only when the context of the writer has not been cancelled: a cancel
    before the close aborts the write. *)
Definition writer_Close (w : Writer) : State World (option Error) :=
  log (EvWriterClose (w_key w)) ;;;
  aborted <- gets (λ s, is_cancelled (ctxs s) (w_ctx w)) ;;
  if (aborted : bool) then ret (Some ContextCanceled)
  else
    match f_close F (w_key w) with
    | Some e => ret (Some e)
    | None => set_objects (<[w_key w := w_buf w]>) ;;; ret None
    end.

(** [io.Copy(w, r)]: every chunk read is written; a failed write or a
    read error ends the copy with that error. The writer is returned as
    the copy left it. *)
Fixpoint io_Copy (w : Writer) (cs : list bytes) (fin : option Error)
  : State World (Writer * option Error) :=
  match cs with
  | [] => ret (w, fin)
  | c :: cs' =>
      r <- writer_Write w c ;;
      match r with
      | inl e => ret (w, Some e)
      | inr w' => io_Copy w' cs' fin
      end
  end.

(** ** cloudBlobAccess *)

Record cloudBlobAccess := {
  keyPrefix : string;
  storageType : StorageType;
}.

(** [status.Errorf(c, format)] with no operands: the message is what
    [fmt.Sprintf] makes of the format alone. *)
Variable fmt_Sprintf : string → string.

Definition status_Errorf (c : Code) (format : string) : Error :=
  StatusErr c (fmt_Sprintf format).

(** [b.ToReader()] of the buffer package: the stream a buffer yields. *)
Variable ToReader : Buffer World → Stream.

Definition getKey (ba : cloudBlobAccess) (digest : Digest) : string :=
  keyPrefix ba +:+ GetDigestKey (storageType ba) digest.

Definition Get (ba : cloudBlobAccess) (ctx : Context) (digest : Digest)
  : State World (Buffer World) :=
  let key := getKey ba digest in
  res <- bucket_NewReader ctx key ;;
  match res with
  | inl err =>
      let err :=
        if decide (gcerrors_Code err = GcNotFound)
        then status_Errorf NotFound (Error_Error err)
        else err in
      ret (NewBufferFromError err)
  | inr result =>
      ret (NewBufferFromReader (storageType ba) digest result
             (Reparable digest (bucket_Delete ctx key)))
  end.

Definition Put (ba : cloudBlobAccess) (ctx : Context) (digest : Digest)
    (b : Buffer World) : State World (option Error) :=
  let r := ToReader b in
  ctx' <- context_WithCancel ctx ;;
  res <- bucket_NewWriter ctx' (getKey ba digest) ;;
  match res with
  | inl err =>
      cancel ctx' ;;;
      log EvReaderClose ;;;
      ret (Some err)
  | inr w =>
      copied <- io_Copy w (chunks r) (final r) ;;
      match copied.2 with
      | Some err =>
          cancel ctx' ;;;
          writer_Close copied.1 ;;;
          log EvReaderClose ;;;
          ret (Some err)
      | None =>
          writer_Close copied.1 ;;;
          cancel ctx' ;;;
          log EvReaderClose ;;;
          ret None
      end
  end.

Fixpoint FindMissing_loop (ba : cloudBlobAccess) (ctx : Context)
    (items : list Digest) (missing : DigestSet)
  : State World (DigestSet * option Error) :=
  match items with
  | [] => ret (missing, None)
  | blobDigest :: rest =>
      r <- bucket_Exists ctx (getKey ba blobDigest) ;;
      match r with
      | inl err => ret (∅, Some err)
      | inr false => FindMissing_loop ba ctx rest ({[blobDigest]} ∪ missing)
      | inr true => FindMissing_loop ba ctx rest missing
      end
  end.

Definition FindMissing (ba : cloudBlobAccess) (ctx : Context) (digests : DigestSet)
  : State World (DigestSet * option Error) :=
  FindMissing_loop ba ctx (Items digests) ∅.

(** [NewCloudBlobAccess]; the bucket is the state the operations act on. *)
Definition NewCloudBlobAccess (keyPrefix : string) (storageType : StorageType)
  : BlobAccess World :=
  let ba := {| keyPrefix := keyPrefix; storageType := storageType |} in
  {| ba_Get := Get ba; ba_Put := Put ba; ba_FindMissing := FindMissing ba |}.

(** ** A concrete bucket, for running the code *)

Definition no_faults : Faults :=
  {| f_reader := λ _, None; f_exists := λ _, None; f_delete := λ _, None;
     f_writer := λ _, None; f_write := λ _ _ _, None; f_close := λ _, None |}.

Definition hello : bytes := [Byte.x48; Byte.x65; Byte.x6c; Byte.x6c; Byte.x6f].

Definition d_hello : Digest :=
  {| instanceName := "main"; hashHex := "8b1a9953c4611296a827abf8c47804d7";
     sizeBytes := 5 |}.

Definition d_absent : Digest :=
  {| instanceName := "main"; hashHex := "d41d8cd98f00b204e9800998ecf8427e";
     sizeBytes := 0 |}.

Definition ba_cas : cloudBlobAccess := {| keyPrefix := "bazel_cas/"; storageType := CAS |}.

Definition w_hello : World :=
  {| objects := {[ "bazel_cas/8b1a9953c4611296a827abf8c47804d7-5" := hello ]};
     ctxs := []; trace := [] |}.

(** A buffer read in one chunk; an error buffer fails at the first read. *)
Definition ToReader_simple (b : Buffer World) : Stream :=
  match b with
  | NewBufferFromError e => {| chunks := []; final := Some e |}
  | NewBufferFromReader _ _ r _ => {| chunks := [rd_content r]; final := None |}
  | NewCASBufferFromByteSlice _ data _ => {| chunks := [data]; final := None |}
  end.

(** A reader that breaks after its first chunk. *)
Definition ToReader_broken (b : Buffer World) : Stream :=
  {| chunks := chunks (ToReader_simple b);
     final := Some (PlainErr "unexpected EOF") |}.

(** One failing provider: existence checks on [d_absent] time out. *)
Definition exists_times_out : Faults :=
  {| f_reader := λ _, None;
     f_exists := λ key,
       if decide (key = "bazel_cas/d41d8cd98f00b204e9800998ecf8427e-0")
       then Some ContextDeadlineExceeded else None;
     f_delete := λ _, None; f_writer := λ _, None; f_write := λ _ _ _, None;
     f_close := λ _, None |}.

(** ** Properties *)

(** The key an event carries, if any. *)
Definition event_key (e : Event) : option string :=
  match e with
  | EvNewReader k | EvExists k | EvDelete k | EvNewWriter _ k
  | EvWrite k _ | EvWriterClose k => Some k
  | EvWithCancel _ _ | EvCancel _ | EvReaderClose => None
  end.

(** An event that touches the bucket touches it at [key]. *)
Definition on_key (key : string) (e : Event) : Prop :=
  ∀ k, event_key e = Some k → k = key.

(** The digests of [s] whose key the bucket reports absent. *)
Definition reported_absent (ba : cloudBlobAccess) (objs : gmap string bytes)
    (s : DigestSet) : DigestSet :=
  filter (λ d, exists_answer objs (getKey ba d) = inr false) s.

(** The world after one more logged event. *)
Definition logged (e : Event) (w : World) : World := (log e w).2.

Lemma FindMissing_loop_cons ba ctx d rest missing w :
  FindMissing_loop ba ctx (d :: rest) missing w
  = match exists_answer (objects w) (getKey ba d) with
    | inl err => ((∅, Some err), logged (EvExists (getKey ba d)) w)
    | inr true =>
        FindMissing_loop ba ctx rest missing (logged (EvExists (getKey ba d)) w)
    | inr false =>
        FindMissing_loop ba ctx rest ({[d]} ∪ missing)
          (logged (EvExists (getKey ba d)) w)
    end.
Proof.
  change (FindMissing_loop ba ctx (d :: rest) missing w)
    with (match exists_answer (objects w) (getKey ba d) with
          | inl err => ret (∅, Some err)
          | inr true => FindMissing_loop ba ctx rest missing
          | inr false => FindMissing_loop ba ctx rest ({[d]} ∪ missing)
          end (logged (EvExists (getKey ba d)) w)).
  by destruct (exists_answer (objects w) (getKey ba d)) as [?|[|]].
Qed.

Lemma FindMissing_loop_frame ba ctx items missing w :
  objects (FindMissing_loop ba ctx items missing w).2 = objects w
  ∧ ctxs (FindMissing_loop ba ctx items missing w).2 = ctxs w
  ∧ ∃ evs, trace (FindMissing_loop ba ctx items missing w).2 = trace w ++ evs
      ∧ Forall (λ e, ∃ d, d ∈ items ∧ e = EvExists (getKey ba d)) evs.
Proof.
  revert missing w. induction items as [|d rest IH]; intros missing w.
  - cbn. repeat split. exists nil. by rewrite app_nil_r.
  - rewrite FindMissing_loop_cons.
    assert (Hstep : ∀ m,
      objects (FindMissing_loop ba ctx rest m (logged (EvExists (getKey ba d)) w)).2
        = objects w
      ∧ ctxs (FindMissing_loop ba ctx rest m (logged (EvExists (getKey ba d)) w)).2
        = ctxs w
      ∧ ∃ evs,
          trace (FindMissing_loop ba ctx rest m (logged (EvExists (getKey ba d)) w)).2
            = trace w ++ evs
          ∧ Forall (λ e, ∃ d0, d0 ∈ d :: rest ∧ e = EvExists (getKey ba d0)) evs).
    { intros m.
      destruct (IH m (logged (EvExists (getKey ba d)) w)) as (Ho & Hc & evs & Ht & Hall).
      rewrite Ho, Hc, Ht. repeat split.
      exists (EvExists (getKey ba d) :: evs). cbn. rewrite <- app_assoc. split; [done|].
      constructor; [exists d; split; [left|done]|].
      eapply Forall_impl; [exact Hall|]. intros e (d' & Hd' & ->).
      exists d'. split; [by right|done]. }
    destruct (exists_answer (objects w) (getKey ba d)) as [err|[|]]; [|apply Hstep..].
    cbn. repeat split. exists (EvExists (getKey ba d) :: nil).
    split; [done|]. constructor; [|done]. exists d. split; [left|done].
Qed.

Lemma FindMissing_loop_ok ba ctx items missing w :
  (∀ d, d ∈ items → ∀ e, exists_answer (objects w) (getKey ba d) ≠ inl e) →
  (FindMissing_loop ba ctx items missing w).1
  = (list_to_set
       (filter (λ d, exists_answer (objects w) (getKey ba d) = inr false) items)
     ∪ missing, None).
Proof.
  revert missing w. induction items as [|d rest IH]; intros missing w Hok.
  - cbn. f_equal. set_solver.
  - rewrite FindMissing_loop_cons, filter_cons.
    assert (Hrest : ∀ d', d' ∈ rest → ∀ e,
      exists_answer (objects (logged (EvExists (getKey ba d)) w)) (getKey ba d') ≠ inl e).
    { intros d' Hd'. apply Hok. by right. }
    destruct (exists_answer (objects w) (getKey ba d)) as [err|[|]] eqn:E.
    + exfalso. eapply (Hok d); [left|exact E].
    + rewrite decide_False by done. by rewrite IH.
    + rewrite decide_True by done. rewrite IH by done. cbn. f_equal. set_solver.
Qed.

Lemma FindMissing_loop_err ba ctx items missing w :
  (∃ d e, d ∈ items ∧ exists_answer (objects w) (getKey ba d) = inl e) →
  ∃ d e, d ∈ items ∧ exists_answer (objects w) (getKey ba d) = inl e
         ∧ (FindMissing_loop ba ctx items missing w).1 = (∅, Some e).
Proof.
  revert missing w. induction items as [|d rest IH]; intros missing w Hbad.
  - destruct Hbad as (d & e & Hd & _). by apply elem_of_nil in Hd.
  - rewrite FindMissing_loop_cons.
    destruct (exists_answer (objects w) (getKey ba d)) as [err|present] eqn:E.
    + exists d, err. split; [left|]. by split.
    + assert (Hrest : ∃ d' e, d' ∈ rest
                ∧ exists_answer (objects (logged (EvExists (getKey ba d)) w))
                    (getKey ba d') = inl e).
      { destruct Hbad as (d' & e & Hd' & He). exists d', e.
        apply elem_of_cons in Hd' as [->|Hd']; [congruence|done]. }
      destruct present.
      * destruct (IH missing _ Hrest) as (d' & e & Hd' & He & Hr).
        exists d', e. split; [by right|done].
      * destruct (IH ({[d]} ∪ missing) _ Hrest) as (d' & e & Hd' & He & Hr).
        exists d', e. split; [by right|done].
Qed.

(** C1. FindMissing leaves the bucket as it is and returns: when no
    existence check errors, exactly the digests of the set whose key the
    bucket reports absent (every digest whose key exists is left out,
    every digest whose key does not exist is in); when some existence
    check fails, the empty set and the error of a failed check. *)
Theorem FindMissing_missing_iff_absent ba ctx (digests : DigestSet) w :
  objects (FindMissing ba ctx digests w).2 = objects w
  ∧ ((∀ d, d ∈ digests → ∀ e, exists_answer (objects w) (getKey ba d) ≠ inl e) →
     (FindMissing ba ctx digests w).1 = (reported_absent ba (objects w) digests, None)
     ∧ ∀ d, d ∈ digests →
         (exists_answer (objects w) (getKey ba d) = inr true →
            d ∉ (FindMissing ba ctx digests w).1.1)
         ∧ (exists_answer (objects w) (getKey ba d) = inr false →
              d ∈ (FindMissing ba ctx digests w).1.1))
  ∧ ((∃ d e, d ∈ digests ∧ exists_answer (objects w) (getKey ba d) = inl e) →
     ∃ d e, d ∈ digests ∧ exists_answer (objects w) (getKey ba d) = inl e
            ∧ (FindMissing ba ctx digests w).1 = (∅, Some e)).
Proof.
  unfold FindMissing, Items. split; [|split].
  - apply FindMissing_loop_frame.
  - intros Hok.
    assert (Hres : (FindMissing_loop ba ctx (elements digests) ∅ w).1
                   = (reported_absent ba (objects w) digests, None)).
    { rewrite FindMissing_loop_ok.
      - f_equal. unfold reported_absent. apply set_eq. intros d.
        rewrite elem_of_union, elem_of_list_to_set, list_elem_of_filter,
          elem_of_filter, elem_of_elements. set_solver.
      - intros d Hd. apply Hok. by apply elem_of_elements. }
    split; [exact Hres|]. intros d Hd. rewrite Hres. cbn. unfold reported_absent.
    split; intros E.
    + rewrite elem_of_filter. intros [E' _]. congruence.
    + by apply elem_of_filter.
  - intros (d & e & Hd & He).
    destruct (FindMissing_loop_err ba ctx (elements digests) ∅ w) as (d' & e' & H1 & H2 & H3).
    { exists d, e. by rewrite elem_of_elements. }
    exists d', e'. by rewrite <- elem_of_elements.
Qed.

(** C4. Get has a buffer as its only result, so an error can only be
    embedded in it. When opening the reader fails with [err], the buffer
    is the one made from an error: a status error of code NotFound when
    the provider classifies [err] as NotFound, and [err] itself, with its
    classification, otherwise. *)
Theorem Get_embeds_open_error ba ctx digest w err :
  reader_answer (objects w) (getKey ba digest) = inl err →
  (gcerrors_Code err = GcNotFound →
     ∃ e, (Get ba ctx digest w).1 = NewBufferFromError e
          ∧ e = status_Errorf NotFound (Error_Error err)
          ∧ status_Code e = NotFound)
  ∧ (gcerrors_Code err ≠ GcNotFound →
       (Get ba ctx digest w).1 = NewBufferFromError err)
  ∧ objects (Get ba ctx digest w).2 = objects w.
Proof.
  intros Hopen.
  assert (Hrun : Get ba ctx digest w
          = (NewBufferFromError
               (if decide (gcerrors_Code err = GcNotFound)
                then status_Errorf NotFound (Error_Error err) else err),
             logged (EvNewReader (getKey ba digest)) w)).
  { unfold Get, bind, bucket_NewReader, gets. cbn. by rewrite Hopen. }
  rewrite Hrun. cbn. split; [|split]; [| |done].
  - intros Hnf. rewrite decide_True by done. by eexists.
  - intros Hnf. by rewrite decide_False.
Qed.

Lemma bucket_Delete_run ctx key w :
  bucket_Delete ctx key w
  = match f_delete F key with
    | Some e => (Some e, logged (EvDelete key) w)
    | None =>
        if bool_decide (is_Some (objects w !! key))
        then (None, {| objects := delete key (objects w); ctxs := ctxs w;
                       trace := trace w ++ [EvDelete key] |})
        else (Some (not_found key), logged (EvDelete key) w)
    end.
Proof.
  unfold bucket_Delete, bind. cbn. destruct (f_delete F key); [done|].
  cbn. by destruct (bool_decide (is_Some (objects w !! key))).
Qed.

(** C5. When the reader opens, the buffer Get returns is the storage
    type's buffer on that reader for that digest, repairable by a hook
    that makes one call on the bucket, Delete of the digest's key; no
    other key is touched, and when the Delete does not fail, the key is
    gone from the bucket. *)
Theorem Get_repair_deletes_key ba ctx digest w result :
  reader_answer (objects w) (getKey ba digest) = inr result →
  ∃ repairFunc,
    (Get ba ctx digest w).1
    = NewBufferFromReader (storageType ba) digest result (Reparable digest repairFunc)
    ∧ rd_key result = getKey ba digest
    ∧ ∀ w',
        trace (repairFunc w').2 = trace w' ++ [EvDelete (getKey ba digest)]
        ∧ (∀ k, k ≠ getKey ba digest → objects (repairFunc w').2 !! k = objects w' !! k)
        ∧ ((repairFunc w').1 = None → objects (repairFunc w').2 !! getKey ba digest = None)
        ∧ (f_delete F (getKey ba digest) = None →
           objects (repairFunc w').2 = delete (getKey ba digest) (objects w')).
Proof.
  intros Hopen. exists (bucket_Delete ctx (getKey ba digest)). split; [|split].
  - unfold Get, bind, bucket_NewReader, gets. cbn. by rewrite Hopen.
  - unfold reader_answer in Hopen.
    destruct (f_reader F (getKey ba digest)); [done|].
    destruct (objects w !! getKey ba digest); [|done]. by inversion Hopen.
  - intros w'. rewrite bucket_Delete_run.
    destruct (f_delete F (getKey ba digest)) as [e|] eqn:Hf.
    + cbn. repeat split; done.
    + destruct (bool_decide (is_Some (objects w' !! getKey ba digest))) eqn:Hp; cbn.
      * repeat split.
        -- intros k Hk. by rewrite lookup_delete_ne.
        -- intros _. apply lookup_delete_eq.
      * apply bool_decide_eq_false in Hp. rewrite <- eq_None_not_Some in Hp.
        repeat split; try done. intros _. symmetry. by apply delete_id.
Qed.

Lemma writer_Write_run wr chunk s :
  writer_Write wr chunk s
  = (match f_write F (w_key wr) (w_buf wr) chunk with
     | Some e => inl e
     | None => inr {| w_key := w_key wr; w_ctx := w_ctx wr; w_buf := w_buf wr ++ chunk |}
     end, logged (EvWrite (w_key wr) chunk) s).
Proof.
  unfold writer_Write, bind. cbn.
  by destruct (f_write F (w_key wr) (w_buf wr) chunk).
Qed.

(** [io.Copy] only writes: the bucket and the contexts stay as they are,
    the log grows by the writes of a prefix of the chunks, and a copy
    that ends without error has read to EOF and written every chunk. *)
Lemma io_Copy_spec wr cs fin s :
  objects (io_Copy wr cs fin s).2 = objects s
  ∧ ctxs (io_Copy wr cs fin s).2 = ctxs s
  ∧ w_key (io_Copy wr cs fin s).1.1 = w_key wr
  ∧ w_ctx (io_Copy wr cs fin s).1.1 = w_ctx wr
  ∧ (∃ n, trace (io_Copy wr cs fin s).2
          = trace s ++ map (EvWrite (w_key wr)) (take n cs))
  ∧ ((io_Copy wr cs fin s).1.2 = None →
     fin = None
     ∧ w_buf (io_Copy wr cs fin s).1.1 = w_buf wr ++ concat cs
     ∧ trace (io_Copy wr cs fin s).2 = trace s ++ map (EvWrite (w_key wr)) cs).
Proof.
  revert wr s. induction cs as [|c cs IH]; intros wr s.
  - cbn. repeat split; try done.
    + exists 0%nat. by rewrite app_nil_r.
    + by rewrite app_nil_r.
    + by rewrite app_nil_r.
  - cbn [io_Copy]. unfold bind. rewrite writer_Write_run. cbn [fst snd].
    destruct (f_write F (w_key wr) (w_buf wr) c) as [e|].
    + cbn. repeat split; try done.
      exists 1%nat. by destruct cs.
    + set (wr' := {| w_key := w_key wr; w_ctx := w_ctx wr; w_buf := w_buf wr ++ c |}).
      set (s' := logged (EvWrite (w_key wr) c) s).
      destruct (IH wr' s') as (Ho & Hc & Hk & Hx & (n & Ht) & Hok).
      change (w_key wr') with (w_key wr) in *.
      change (w_ctx wr') with (w_ctx wr) in *.
      change (w_buf wr') with (w_buf wr ++ c) in *.
      change (objects s') with (objects s) in *.
      change (ctxs s') with (ctxs s) in *.
      change (trace s') with (trace s ++ [EvWrite (w_key wr) c]) in *.
      rewrite Ho, Hc, Hk, Hx. repeat split.
      * exists (S n). rewrite Ht. cbn. by rewrite <- app_assoc.
      * by apply Hok.
      * destruct (Hok H) as (_ & -> & _). cbn. by rewrite <- app_assoc.
      * destruct (Hok H) as (_ & _ & ->). cbn. by rewrite <- app_assoc.
Qed.

Lemma writer_Close_run wr s :
  writer_Close wr s
  = if is_cancelled (ctxs s) (w_ctx wr)
    then (Some ContextCanceled, logged (EvWriterClose (w_key wr)) s)
    else match f_close F (w_key wr) with
         | Some e => (Some e, logged (EvWriterClose (w_key wr)) s)
         | None =>
             (None, {| objects := <[w_key wr := w_buf wr]> (objects s);
                       ctxs := ctxs s;
                       trace := trace s ++ [EvWriterClose (w_key wr)] |})
         end.
Proof.
  unfold writer_Close, bind. cbn.
  destruct (is_cancelled (ctxs s) (w_ctx wr)); [done|].
  by destruct (f_close F (w_key wr)).
Qed.

Lemma cancel_run c s :
  cancel c s
  = (tt, {| objects := objects s; ctxs := <[c := true]> (ctxs s);
            trace := trace s ++ [EvCancel c] |}).
Proof. done. Qed.

Ltac list_assoc := rewrite <- ?app_assoc; cbn; reflexivity.

(** The calls that open the writer in Put, in a world with [n] contexts. *)
Definition opening (ba : cloudBlobAccess) (ctx : Context) (digest : Digest)
    (n : nat) : list Event :=
  [EvWithCancel ctx n; EvNewWriter n (getKey ba digest)].

(** Every run of Put, by whether the writer opens and how the copy ends. *)
Lemma Put_spec ba ctx digest b w :
  let key := getKey ba digest in
  let c := length (ctxs w) in
  let r := Put ba ctx digest b w in
  match f_writer F key with
  | Some e =>
      r.1 = Some e
      ∧ objects r.2 = objects w
      ∧ trace r.2 = trace w ++ opening ba ctx digest c ++ [EvCancel c; EvReaderClose]
  | None =>
      ∃ n,
        match r.1 with
        | Some err =>
            trace r.2
            = trace w ++ opening ba ctx digest c
                ++ map (EvWrite key) (take n (chunks (ToReader b)))
                ++ [EvCancel c; EvWriterClose key; EvReaderClose]
            ∧ objects r.2 = objects w
        | None =>
            trace r.2
            = trace w ++ opening ba ctx digest c
                ++ map (EvWrite key) (chunks (ToReader b))
                ++ [EvWriterClose key; EvCancel c; EvReaderClose]
            ∧ final (ToReader b) = None
            ∧ objects r.2
              = if is_cancelled (ctxs w) ctx || bool_decide (is_Some (f_close F key))
                then objects w
                else <[key := concat (chunks (ToReader b))]> (objects w)
        end
  end.
Proof.
  intros key c r.
  assert (Hlook : ∀ v, (ctxs w ++ [v]) !! c = Some v).
  { intros v. unfold c. by rewrite lookup_app_r, Nat.sub_diag. }
  assert (Hlive : ∀ v, is_cancelled (ctxs w ++ [v]) c = v).
  { intros v. unfold is_cancelled. by rewrite Hlook. }
  assert (Hcanc : ∀ v, is_cancelled (<[c := true]> (ctxs w ++ [v])) c = true).
  { intros v. unfold is_cancelled. rewrite list_lookup_insert_eq; [done|].
    unfold c. rewrite length_app. cbn. lia. }
  destruct (f_writer F key) as [e|] eqn:Hw.
  - unfold r, Put, bind, bucket_NewWriter. cbn. fold key. rewrite Hw. cbn.
    repeat split. unfold opening. list_assoc.
  - set (w1 := {| objects := objects w;
                  ctxs := ctxs w ++ [is_cancelled (ctxs w) ctx];
                  trace := (trace w ++ [EvWithCancel ctx c]) ++ [EvNewWriter c key] |}).
    set (wr := {| w_key := key; w_ctx := c; w_buf := [] |}).
    assert (Hr : r = bind (io_Copy wr (chunks (ToReader b)) (final (ToReader b)))
              (λ copied,
                 match copied.2 with
                 | Some err =>
                     cancel c ;;; writer_Close copied.1 ;;;
                     log EvReaderClose ;;; ret (Some err)
                 | None =>
                     writer_Close copied.1 ;;; cancel c ;;;
                     log EvReaderClose ;;; ret None
                 end) w1).
    { unfold r, Put, bind at 1 2, bucket_NewWriter. cbn. fold key. by rewrite Hw. }
    destruct (io_Copy_spec wr (chunks (ToReader b)) (final (ToReader b)) w1)
      as (Ho & Hc & Hk & Hx & (n & Ht) & Hok).
    cbn in Ho, Hc, Hk, Hx, Ht.
    unfold bind at 1 in Hr. cbn beta in Hr.
    destruct ((io_Copy wr (chunks (ToReader b)) (final (ToReader b)) w1).1)
      as [wr' [err|]] eqn:Hcopy; cbn in Hk, Hx, Hok, Hr.
    + (* the copy failed *)
      exists n. rewrite Hr. unfold bind. rewrite cancel_run. cbn [fst snd].
      rewrite writer_Close_run. cbn [ctxs]. rewrite Hc, Hx, Hk, Hcanc.
      cbn. rewrite Ho, Ht. split; [|done]. unfold opening. fold key. list_assoc.
    + (* the copy succeeded *)
      destruct (Hok eq_refl) as (Hfin & Hbuf & Ht'). cbn in Hbuf.
      exists 0%nat. rewrite Hr. unfold bind. rewrite writer_Close_run.
      rewrite Hc, Hx, Hk, Hlive. unfold opening. fold key.
      destruct (is_cancelled (ctxs w) ctx); [|destruct (f_close F key) as [e|]];
        cbn; rewrite Ho, Ht', ?Hbuf; repeat split; first [done | list_assoc].
Qed.


Lemma Get_run ba ctx digest w :
  Get ba ctx digest w
  = (match reader_answer (objects w) (getKey ba digest) with
     | inl err =>
         NewBufferFromError
           (if decide (gcerrors_Code err = GcNotFound)
            then status_Errorf NotFound (Error_Error err) else err)
     | inr result =>
         NewBufferFromReader (storageType ba) digest result
           (Reparable digest (bucket_Delete ctx (getKey ba digest)))
     end, logged (EvNewReader (getKey ba digest)) w).
Proof.
  unfold Get, bind, bucket_NewReader, gets. cbn.
  by destruct (reader_answer (objects w) (getKey ba digest)).
Qed.

Lemma Forall_on_key_writes key cs :
  Forall (on_key key) (map (EvWrite key) cs).
Proof.
  apply Forall_forall. intros e He. apply list_elem_of_fmap in He as (c & -> & _).
  intros k Hk. by inversion Hk.
Qed.

Lemma Put_touches_only_its_key ba ctx digest b w :
  ∃ evs, trace (Put ba ctx digest b w).2 = trace w ++ evs
         ∧ Forall (on_key (getKey ba digest)) evs
         ∧ EvNewWriter (length (ctxs w)) (getKey ba digest) ∈ evs.
Proof.
  pose proof (Put_spec ba ctx digest b w) as Hspec. cbn zeta in Hspec.
  assert (Hopen : Forall (on_key (getKey ba digest))
                    (opening ba ctx digest (length (ctxs w)))).
  { repeat constructor; intros k Hk; by inversion Hk. }
  assert (Hin : ∀ l, EvNewWriter (length (ctxs w)) (getKey ba digest)
                     ∈ opening ba ctx digest (length (ctxs w)) ++ l).
  { intros l. apply elem_of_app. left. unfold opening. set_solver. }
  assert (Hclose : ∀ l, l ⊆ [EvCancel (length (ctxs w));
                             EvWriterClose (getKey ba digest); EvReaderClose] →
                        Forall (on_key (getKey ba digest)) l).
  { intros l Hl. apply Forall_forall. intros e He. apply Hl in He.
    repeat (apply elem_of_cons in He as [->|He]); try (by apply elem_of_nil in He);
      intros k Hk; by inversion Hk. }
  destruct (f_writer F (getKey ba digest)) as [e|].
  - destruct Hspec as (_ & _ & ->). eexists. split; [done|]. split; [|apply Hin].
    apply Forall_app. split; [done|]. apply Hclose. set_solver.
  - destruct Hspec as (n & Hspec).
    destruct ((Put ba ctx digest b w).1) as [err|].
    + destruct Hspec as (-> & _). eexists. split; [done|]. split; [|apply Hin].
      rewrite !Forall_app. split; [done|]. split; [apply Forall_on_key_writes|].
      apply Hclose. set_solver.
    + destruct Hspec as (-> & _). eexists. split; [done|]. split; [|apply Hin].
      rewrite !Forall_app. split; [done|]. split; [apply Forall_on_key_writes|].
      apply Hclose. set_solver.
Qed.

(** C8. The key of a digest is the key prefix followed by the storage
    type's digest key (for CAS: the hash, a dash and the size), and it is
    the one key of every bucket call made for that digest: the reader
    Get opens, the Delete of the repair hook of Get's buffer, the writer
    Put opens, writes and closes, and the existence check of FindMissing. *)
Theorem getKey_prefix_and_digest_key ba ctx digest :
  let key := keyPrefix ba +:+ GetDigestKey (storageType ba) digest in
  getKey ba digest = key
  ∧ getKey {| keyPrefix := keyPrefix ba; storageType := CAS |} digest
    = keyPrefix ba +:+ (hashHex digest +:+ "-" +:+ pretty (sizeBytes digest))
  ∧ (∀ w, trace (Get ba ctx digest w).2 = trace w ++ [EvNewReader key])
  ∧ (∀ w, match (Get ba ctx digest w).1 with
          | NewBufferFromReader _ d r (Reparable d' repairFunc) =>
              d = digest ∧ d' = digest ∧ rd_key r = key
              ∧ ∀ w', trace (repairFunc w').2 = trace w' ++ [EvDelete key]
          | NewBufferFromError _ => True
          | _ => False
          end)
  ∧ (∀ b w, ∃ evs, trace (Put ba ctx digest b w).2 = trace w ++ evs
                   ∧ Forall (on_key key) evs
                   ∧ EvNewWriter (length (ctxs w)) key ∈ evs)
  ∧ (∀ (digests : DigestSet) w,
       ∃ evs, trace (FindMissing ba ctx digests w).2 = trace w ++ evs
              ∧ Forall (λ e, ∃ d, d ∈ digests
                   ∧ e = EvExists (keyPrefix ba +:+ GetDigestKey (storageType ba) d)) evs)
  ∧ (∀ w, trace (FindMissing ba ctx {[digest]} w).2 = trace w ++ [EvExists key]).
Proof.
  intros key. split; [done|]. split; [done|]. split; [|split; [|split; [|split]]].
  - intros w. by rewrite Get_run.
  - intros w. rewrite Get_run. cbn [fst].
    destruct (reader_answer (objects w) (getKey ba digest)) as [err|r] eqn:Hopen; [done|].
    repeat split.
    + unfold reader_answer in Hopen.
      destruct (f_reader F (getKey ba digest)); [done|].
      destruct (objects w !! getKey ba digest); [|done]. by inversion Hopen.
    + intros w'. rewrite bucket_Delete_run.
      destruct (f_delete F (getKey ba digest)); [done|].
      by destruct (bool_decide _).
  - intros b w. apply Put_touches_only_its_key.
  - intros digests w. unfold FindMissing.
    destruct (FindMissing_loop_frame ba ctx (Items digests) ∅ w)
      as (_ & _ & evs & Ht & Hall).
    exists evs. split; [done|]. eapply Forall_impl; [exact Hall|].
    intros e (d & Hd & ->). exists d. split; [|done]. by apply elem_of_elements.
  - intros w. unfold FindMissing, Items. rewrite elements_singleton.
    rewrite FindMissing_loop_cons.
    by destruct (exists_answer (objects w) (getKey ba digest)) as [?|[|]].
Qed.

(** ** Further properties of the cloud backend *)

Lemma writer_Close_ctxs wr s : ctxs (writer_Close wr s).2 = ctxs s.
Proof.
  rewrite writer_Close_run.
  destruct (is_cancelled (ctxs s) (w_ctx wr)); [done|].
  by destruct (f_close F (w_key wr)).
Qed.

(** Whatever the path, Put ends with the table of contexts grown by its
    own context, cancelled. *)
Lemma Put_ctxs ba ctx digest b w :
  ctxs (Put ba ctx digest b w).2
  = <[length (ctxs w) := true]> (ctxs w ++ [is_cancelled (ctxs w) ctx]).
Proof.
  set (key := getKey ba digest). set (c := length (ctxs w)).
  destruct (f_writer F key) as [e|] eqn:Hw.
  - unfold Put, bind, bucket_NewWriter. cbn. fold key. by rewrite Hw.
  - set (w1 := {| objects := objects w;
                  ctxs := ctxs w ++ [is_cancelled (ctxs w) ctx];
                  trace := (trace w ++ [EvWithCancel ctx c]) ++ [EvNewWriter c key] |}).
    set (wr := {| w_key := key; w_ctx := c; w_buf := [] |}).
    assert (Hr : Put ba ctx digest b w
              = bind (io_Copy wr (chunks (ToReader b)) (final (ToReader b)))
                (λ copied,
                   match copied.2 with
                   | Some err =>
                       cancel c ;;; writer_Close copied.1 ;;;
                       log EvReaderClose ;;; ret (Some err)
                   | None =>
                       writer_Close copied.1 ;;; cancel c ;;;
                       log EvReaderClose ;;; ret None
                   end) w1).
    { unfold Put, bind at 1 2, bucket_NewWriter. cbn. fold key. by rewrite Hw. }
    destruct (io_Copy_spec wr (chunks (ToReader b)) (final (ToReader b)) w1)
      as (_ & Hc & _).
    rewrite Hr. unfold bind at 1. cbn beta.
    destruct ((io_Copy wr (chunks (ToReader b)) (final (ToReader b)) w1).1.2).
    + unfold bind. rewrite cancel_run. cbn [fst snd]. cbn.
      rewrite writer_Close_ctxs. cbn. by rewrite Hc.
    + unfold bind. rewrite cancel_run. cbn. by rewrite writer_Close_ctxs, Hc.
Qed.

(** X1. When the bucket refuses to open the writer, Put returns that
    error after cancelling its context; it writes nothing, closes no
    writer, and the bucket is as before. *)
Theorem Put_refused_writer ba ctx digest b w err :
  f_writer F (getKey ba digest) = Some err →
  (Put ba ctx digest b w).1 = Some err
  ∧ objects (Put ba ctx digest b w).2 = objects w
  ∧ trace (Put ba ctx digest b w).2
    = trace w ++ [EvWithCancel ctx (length (ctxs w));
                  EvNewWriter (length (ctxs w)) (getKey ba digest);
                  EvCancel (length (ctxs w)); EvReaderClose].
Proof.
  intros Hw. pose proof (Put_spec ba ctx digest b w) as Hspec.
  cbn zeta in Hspec. rewrite Hw in Hspec. destruct Hspec as (Hr & Ho & Ht).
  by rewrite Hr, Ho, Ht.
Qed.


(** What Put leaves in the bucket when it returns nil under a live
    context and the close is not refused: the whole blob under the key. *)
Lemma Put_success_objects ba ctx digest b w :
  (Put ba ctx digest b w).1 = None →
  is_cancelled (ctxs w) ctx = false →
  f_close F (getKey ba digest) = None →
  objects (Put ba ctx digest b w).2
  = <[getKey ba digest := concat (chunks (ToReader b))]> (objects w).
Proof.
  intros Hnil Hlive Hclose. pose proof (Put_spec ba ctx digest b w) as Hspec.
  cbn zeta in Hspec. destruct (f_writer F (getKey ba digest)) as [e|].
  - destruct Hspec as (Hr & _). congruence.
  - destruct Hspec as (n & Hspec). rewrite Hnil in Hspec.
    destruct Hspec as (_ & _ & ->). by rewrite Hlive, Hclose.
Qed.

(** X3. Round trip. After a Put that returned nil (under a live context,
    its close not refused), a Get of the same digest opens a reader on
    exactly the bytes the buffer yielded, whatever the key held before. *)
Theorem Put_then_Get_round_trip ba ctx ctx' digest b w :
  (Put ba ctx digest b w).1 = None →
  is_cancelled (ctxs w) ctx = false →
  f_close F (getKey ba digest) = None →
  f_reader F (getKey ba digest) = None →
  (Get ba ctx' digest (Put ba ctx digest b w).2).1
  = NewBufferFromReader (storageType ba) digest
      {| rd_key := getKey ba digest; rd_content := concat (chunks (ToReader b)) |}
      (Reparable digest (bucket_Delete ctx' (getKey ba digest))).
Proof.
  intros Hnil Hlive Hclose Hreader. rewrite Get_run. cbn [fst].
  rewrite Put_success_objects by done.
  unfold reader_answer. by rewrite Hreader, lookup_insert_eq.
Qed.

(** FindMissing ends in one of two ways. *)
Lemma FindMissing_cases ba ctx (digests : DigestSet) w :
  (FindMissing ba ctx digests w).1 = (reported_absent ba (objects w) digests, None)
  ∨ ∃ d e, d ∈ digests ∧ exists_answer (objects w) (getKey ba d) = inl e
           ∧ (FindMissing ba ctx digests w).1 = (∅, Some e).
Proof.
  unfold FindMissing, Items.
  destruct (decide (Exists (λ d, f_exists F (getKey ba d) ≠ None) (elements digests)))
    as [Hbad|Hok].
  - right. apply Exists_exists in Hbad as (d & Hd & Hf).
    destruct (f_exists F (getKey ba d)) as [e|] eqn:He; [|done].
    destruct (FindMissing_loop_err ba ctx (elements digests) ∅ w) as (d' & e' & H1 & H2 & H3).
    { exists d, e. split; [done|]. unfold exists_answer. by rewrite He. }
    exists d', e'. by rewrite <- elem_of_elements.
  - left. rewrite FindMissing_loop_ok.
    + f_equal. unfold reported_absent. apply set_eq. intros d.
      rewrite elem_of_union, elem_of_list_to_set, list_elem_of_filter,
        elem_of_filter, elem_of_elements. set_solver.
    + intros d Hd e He. apply Hok. apply Exists_exists. exists d. split; [done|].
      unfold exists_answer in He. by destruct (f_exists F (getKey ba d)).
Qed.

(** X4. After a Put that returned nil (under a live context, its close
    not refused), no FindMissing lists the digest as missing, whatever
    else it is asked about and whatever its checks meet. *)
Theorem Put_then_not_missing ba ctx ctx' digest b w (digests : DigestSet) :
  (Put ba ctx digest b w).1 = None →
  is_cancelled (ctxs w) ctx = false →
  f_close F (getKey ba digest) = None →
  digest ∉ (FindMissing ba ctx' digests (Put ba ctx digest b w).2).1.1.
Proof.
  intros Hnil Hlive Hclose.
  destruct (FindMissing_cases ba ctx' digests (Put ba ctx digest b w).2)
    as [->|(d & e & _ & _ & ->)]; cbn; [|set_solver].
  unfold reported_absent. rewrite elem_of_filter. intros [Habsent _].
  rewrite Put_success_objects in Habsent by done.
  unfold exists_answer in Habsent.
  destruct (f_exists F (getKey ba digest)); [done|].
  rewrite lookup_insert_eq in Habsent.
  rewrite bool_decide_true in Habsent by done. done.
Qed.

(** X5. FindMissing never invents digests: what it returns is a subset of
    what it was asked about, and with an error it returns nothing. *)
Theorem FindMissing_subset ba ctx (digests : DigestSet) w :
  (FindMissing ba ctx digests w).1.1 ⊆ digests
  ∧ (is_Some (FindMissing ba ctx digests w).1.2 → (FindMissing ba ctx digests w).1.1 = ∅).
Proof.
  destruct (FindMissing_cases ba ctx digests w) as [->|(d & e & _ & _ & ->)]; cbn.
  - split; [|by intros [? ?]]. unfold reported_absent. intros d.
    rewrite elem_of_filter. tauto.
  - split; [set_solver|done].
Qed.

(** The existence checks of the loop: one per digest, in order, up to and
    including the first that fails. *)
Lemma FindMissing_loop_checks ba ctx items missing w :
  ∃ n,
    trace (FindMissing_loop ba ctx items missing w).2
    = trace w ++ map (λ d, EvExists (getKey ba d)) (take n items)
    ∧ (n ≤ length items)%nat
    ∧ (∀ i d, (S i < n)%nat → items !! i = Some d →
         ∀ e, exists_answer (objects w) (getKey ba d) ≠ inl e)
    ∧ ((FindMissing_loop ba ctx items missing w).1.2 = None → n = length items)
    ∧ (∀ e, (FindMissing_loop ba ctx items missing w).1.2 = Some e →
         ∃ d, (0 < n)%nat ∧ items !! (n - 1)%nat = Some d
              ∧ exists_answer (objects w) (getKey ba d) = inl e).
Proof.
  revert missing w. induction items as [|d rest IH]; intros missing w.
  - exists 0%nat. cbn. rewrite app_nil_r. repeat split; try done; lia.
  - rewrite FindMissing_loop_cons.
    assert (Hstep : ∀ m,
      (∀ e, exists_answer (objects w) (getKey ba d) ≠ inl e) →
      ∃ n,
        trace (FindMissing_loop ba ctx rest m (logged (EvExists (getKey ba d)) w)).2
        = trace w ++ map (λ d, EvExists (getKey ba d)) (take n (d :: rest))
        ∧ (n ≤ length (d :: rest))%nat
        ∧ (∀ i d0, (S i < n)%nat → (d :: rest) !! i = Some d0 →
             ∀ e, exists_answer (objects w) (getKey ba d0) ≠ inl e)
        ∧ ((FindMissing_loop ba ctx rest m (logged (EvExists (getKey ba d)) w)).1.2 = None →
           n = length (d :: rest))
        ∧ (∀ e, (FindMissing_loop ba ctx rest m (logged (EvExists (getKey ba d)) w)).1.2
                = Some e →
             ∃ d0, (0 < n)%nat ∧ (d :: rest) !! (n - 1)%nat = Some d0
                   ∧ exists_answer (objects w) (getKey ba d0) = inl e)).
    { intros m Hd.
      destruct (IH m (logged (EvExists (getKey ba d)) w))
        as (n & Ht & Hn & Hbefore & Hnone & Hsome).
      exists (S n). rewrite Ht. cbn. rewrite <- app_assoc. repeat split.
      - lia.
      - intros [|i] d0 Hi Hlook; cbn in Hlook.
        + by inversion Hlook; subst.
        + apply (Hbefore i d0); [lia|done].
      - intros Hr. by rewrite (Hnone Hr).
      - intros e He. destruct (Hsome e He) as (d0 & Hpos & Hlook & Hans).
        exists d0. split; [lia|]. split; [|exact Hans].
        destruct n as [|n']; [lia|]. cbn in Hlook |- *.
        by rewrite Nat.sub_0_r in Hlook. }
    destruct (exists_answer (objects w) (getKey ba d)) as [err|[|]] eqn:E;
      [|apply Hstep; by intros..].
    exists 1%nat. cbn. repeat split; try done.
    + lia.
    + intros i d0 Hi. lia.
    + intros e [= <-]. exists d. split; [lia|]. by split.
Qed.

(** X6. FindMissing asks the bucket about the digests one at a time, in
    the order of the items of the set, and stops at the first check that
    fails: without error every digest is checked exactly once; with an
    error, the last check made is the one that failed, and no check
    before it had failed. *)
Theorem FindMissing_checks_in_order ba ctx (digests : DigestSet) w :
  ∃ n,
    trace (FindMissing ba ctx digests w).2
    = trace w ++ map (λ d, EvExists (getKey ba d)) (take n (Items digests))
    ∧ (n ≤ size digests)%nat
    ∧ (∀ i d, (S i < n)%nat → Items digests !! i = Some d →
         ∀ e, exists_answer (objects w) (getKey ba d) ≠ inl e)
    ∧ ((FindMissing ba ctx digests w).1.2 = None → n = size digests)
    ∧ (∀ e, (FindMissing ba ctx digests w).1.2 = Some e →
         ∃ d, (0 < n)%nat ∧ Items digests !! (n - 1)%nat = Some d
              ∧ exists_answer (objects w) (getKey ba d) = inl e).
Proof.
  unfold FindMissing.
  destruct (FindMissing_loop_checks ba ctx (Items digests) ∅ w)
    as (n & Ht & Hn & Hbefore & Hnone & Hsome).
  exists n. by repeat split.
Qed.

(** X7. Repair. When Get opens a reader, running the repair hook of its
    buffer (the Delete not refused) removes the blob for good: the hook
    returns nil, a second Get gives a buffer made of a NotFound status
    error, and FindMissing reports the digest missing. *)
Theorem repaired_blob_is_gone ba ctx digest w :
  f_reader F (getKey ba digest) = None →
  f_delete F (getKey ba digest) = None →
  is_Some (objects w !! getKey ba digest) →
  ∃ r repairFunc,
    (Get ba ctx digest w).1
    = NewBufferFromReader (storageType ba) digest r (Reparable digest repairFunc)
    ∧ (repairFunc (Get ba ctx digest w).2).1 = None
    ∧ (Get ba ctx digest (repairFunc (Get ba ctx digest w).2).2).1
      = NewBufferFromError
          (status_Errorf NotFound (Error_Error (not_found (getKey ba digest))))
    ∧ (f_exists F (getKey ba digest) = None →
       (FindMissing ba ctx {[digest]} (repairFunc (Get ba ctx digest w).2).2).1
       = ({[digest]}, None)).
Proof.
  intros Hreader Hdelete [data Hdata].
  exists {| rd_key := getKey ba digest; rd_content := data |},
         (bucket_Delete ctx (getKey ba digest)).
  rewrite Get_run. cbn [fst snd]. unfold reader_answer at 1. rewrite Hreader, Hdata.
  split; [done|]. rewrite bucket_Delete_run, Hdelete. cbn [objects logged log modify snd].
  cbn. rewrite Hdata. rewrite bool_decide_true by done. cbn [fst snd].
  split; [done|]. split.
  - rewrite Get_run. cbn. unfold reader_answer. rewrite Hreader, lookup_delete_eq.
    by rewrite decide_True.
  - intros Hexists. unfold FindMissing, Items. rewrite elements_singleton.
    rewrite FindMissing_loop_cons. unfold exists_answer. cbn. rewrite Hexists.
    rewrite lookup_delete_eq. rewrite bool_decide_false by (by intros [? ?]).
    cbn. f_equal. set_solver.
Qed.

(** Put never removes an object from the bucket. *)
Lemma Put_keeps_objects ba ctx digest b w k :
  is_Some (objects w !! k) → is_Some (objects (Put ba ctx digest b w).2 !! k).
Proof.
  intros Hk. pose proof (Put_spec ba ctx digest b w) as Hspec. cbn zeta in Hspec.
  destruct (f_writer F (getKey ba digest)) as [e|].
  - destruct Hspec as (_ & -> & _). done.
  - destruct Hspec as (n & Hspec). destruct ((Put ba ctx digest b w).1) as [err|].
    + destruct Hspec as (_ & ->). done.
    + destruct Hspec as (_ & _ & ->). destruct (_ || _); [done|].
      destruct (decide (k = getKey ba digest)) as [->|Hne].
      * by rewrite lookup_insert_eq.
      * by rewrite lookup_insert_ne.
Qed.

End Bucket.

(** ** The code on the concrete bucket *)

Example Put_stores_whole_blob :
  Put no_faults ToReader_simple ba_cas 0%nat d_hello
    (NewCASBufferFromByteSlice d_hello hello UserProvided)
    {| objects := ∅; ctxs := []; trace := [] |}
  = (None,
     {| objects := {[ "bazel_cas/8b1a9953c4611296a827abf8c47804d7-5" := hello ]};
        ctxs := [true];
        trace := [EvWithCancel 0 0;
                  EvNewWriter 0 "bazel_cas/8b1a9953c4611296a827abf8c47804d7-5";
                  EvWrite "bazel_cas/8b1a9953c4611296a827abf8c47804d7-5" hello;
                  EvWriterClose "bazel_cas/8b1a9953c4611296a827abf8c47804d7-5";
                  EvCancel 0; EvReaderClose] |}).
Proof. reflexivity. Qed.

Example Put_aborts_broken_upload :
  Put no_faults ToReader_broken ba_cas 0%nat d_hello
    (NewCASBufferFromByteSlice d_hello hello UserProvided)
    {| objects := ∅; ctxs := []; trace := [] |}
  = (Some (PlainErr "unexpected EOF"),
     {| objects := ∅;
        ctxs := [true];
        trace := [EvWithCancel 0 0;
                  EvNewWriter 0 "bazel_cas/8b1a9953c4611296a827abf8c47804d7-5";
                  EvWrite "bazel_cas/8b1a9953c4611296a827abf8c47804d7-5" hello;
                  EvCancel 0;
                  EvWriterClose "bazel_cas/8b1a9953c4611296a827abf8c47804d7-5";
                  EvReaderClose] |}).
Proof. reflexivity. Qed.

Example FindMissing_reports_failed_check :
  (FindMissing exists_times_out ba_cas 0%nat {[d_hello; d_absent]} w_hello).1
  = (∅, Some ContextDeadlineExceeded).
Proof. by vm_compute. Qed.

Example Get_passes_other_errors :
  (Get {| f_reader := λ _, Some (CloudErr GcPermissionDenied "access denied");
          f_exists := λ _, None; f_delete := λ _, None; f_writer := λ _, None;
          f_write := λ _ _ _, None; f_close := λ _, None |}
       (λ s, s) ba_cas 0%nat d_hello w_hello).1
  = NewBufferFromError (CloudErr GcPermissionDenied "access denied").
Proof. reflexivity. Qed.

Lemma FindMissing_missing_iff_absent_witness :
  (FindMissing no_faults ba_cas 0%nat {[d_hello; d_absent]} w_hello).1
  = (reported_absent no_faults ba_cas (objects w_hello) {[d_hello; d_absent]}, None)
  ∧ (d_hello ∉ (FindMissing no_faults ba_cas 0%nat {[d_hello; d_absent]} w_hello).1.1)
  ∧ (d_absent ∈ (FindMissing no_faults ba_cas 0%nat {[d_hello; d_absent]} w_hello).1.1).
Proof.
  destruct (FindMissing_missing_iff_absent no_faults ba_cas 0%nat
              {[d_hello; d_absent]} w_hello) as (_ & Hok & _).
  destruct Hok as [Hres Hmem]; [by intros d _ e|].
  split; [exact Hres|]. split.
  - apply (Hmem d_hello); [set_solver|]. by vm_compute.
  - apply (Hmem d_absent); [set_solver|]. by vm_compute.
Defined.


Lemma Get_embeds_open_error_witness :
  (Get no_faults (λ s, s) ba_cas 0%nat d_absent w_hello).1
  = NewBufferFromError
      (StatusErr NotFound
         "blob (key bazel_cas/d41d8cd98f00b204e9800998ecf8427e-0) (code=NotFound): blob not found").
Proof.
  destruct (Get_embeds_open_error no_faults (λ s, s) ba_cas 0%nat d_absent w_hello
              (not_found (getKey ba_cas d_absent)) eq_refl) as (Hnf & _).
  destruct (Hnf eq_refl) as (e & -> & -> & _). reflexivity.
Defined.

Lemma Get_repair_deletes_key_witness :
  ∃ repairFunc,
    (Get no_faults (λ s, s) ba_cas 0%nat d_hello w_hello).1
    = NewBufferFromReader CAS d_hello
        {| rd_key := "bazel_cas/8b1a9953c4611296a827abf8c47804d7-5"; rd_content := hello |}
        (Reparable d_hello repairFunc)
    ∧ objects (repairFunc w_hello).2 = ∅.
Proof.
  destruct (Get_repair_deletes_key no_faults (λ s, s) ba_cas 0%nat d_hello w_hello
              {| rd_key := "bazel_cas/8b1a9953c4611296a827abf8c47804d7-5";
                 rd_content := hello |} eq_refl) as (f & Hbuf & _ & Hrep).
  exists f. split; [exact Hbuf|].
  destruct (Hrep w_hello) as (_ & _ & _ & Hdel).
  rewrite Hdel by reflexivity. apply delete_singleton_eq.
Defined.

(** A provider that refuses every new writer. *)
Definition writers_refused : Faults :=
  {| f_reader := λ _, None; f_exists := λ _, None; f_delete := λ _, None;
     f_writer := λ _, Some (CloudErr GcPermissionDenied "access denied");
     f_write := λ _ _ _, None; f_close := λ _, None |}.

Definition w_start : World := {| objects := ∅; ctxs := []; trace := [] |}.

Lemma Put_refused_writer_witness :
  (Put writers_refused ToReader_simple ba_cas 0%nat d_hello
     (NewCASBufferFromByteSlice d_hello hello UserProvided) w_start).1
  = Some (CloudErr GcPermissionDenied "access denied")
  ∧ objects (Put writers_refused ToReader_simple ba_cas 0%nat d_hello
               (NewCASBufferFromByteSlice d_hello hello UserProvided) w_start).2 = ∅.
Proof.
  destruct (Put_refused_writer writers_refused ToReader_simple ba_cas 0%nat d_hello
              (NewCASBufferFromByteSlice d_hello hello UserProvided) w_start
              (CloudErr GcPermissionDenied "access denied") eq_refl) as (Hr & Ho & _).
  by split.
Defined.

Lemma Put_then_Get_round_trip_witness :
  (Get no_faults (λ s, s) ba_cas 1%nat d_hello
     (Put no_faults ToReader_simple ba_cas 0%nat d_hello
        (NewCASBufferFromByteSlice d_hello hello UserProvided) w_start).2).1
  = NewBufferFromReader CAS d_hello
      {| rd_key := "bazel_cas/8b1a9953c4611296a827abf8c47804d7-5"; rd_content := hello |}
      (Reparable d_hello
         (bucket_Delete no_faults 1%nat "bazel_cas/8b1a9953c4611296a827abf8c47804d7-5")).
Proof.
  apply (Put_then_Get_round_trip no_faults (λ s, s) ToReader_simple ba_cas 0%nat 1%nat
           d_hello (NewCASBufferFromByteSlice d_hello hello UserProvided) w_start);
    reflexivity.
Defined.

Lemma Put_then_not_missing_witness :
  d_hello ∉ (FindMissing no_faults ba_cas 1%nat {[d_hello; d_absent]}
               (Put no_faults ToReader_simple ba_cas 0%nat d_hello
                  (NewCASBufferFromByteSlice d_hello hello UserProvided) w_start).2).1.1.
Proof.
  apply (Put_then_not_missing no_faults ToReader_simple ba_cas 0%nat 1%nat d_hello
           (NewCASBufferFromByteSlice d_hello hello UserProvided) w_start
           {[d_hello; d_absent]}); reflexivity.
Defined.

Lemma repaired_blob_is_gone_witness :
  ∃ r repairFunc,
    (Get no_faults (λ s, s) ba_cas 0%nat d_hello w_hello).1
    = NewBufferFromReader CAS d_hello r (Reparable d_hello repairFunc)
    ∧ (FindMissing no_faults ba_cas 0%nat {[d_hello]}
         (repairFunc (Get no_faults (λ s, s) ba_cas 0%nat d_hello w_hello).2).2).1
      = ({[d_hello]}, None).
Proof.
  destruct (repaired_blob_is_gone no_faults (λ s, s) ba_cas 0%nat d_hello w_hello
              eq_refl eq_refl) as (r & repairFunc & Hget & _ & _ & Hmissing).
  - by eexists.
  - exists r, repairFunc. split; [exact Hget|]. by apply Hmissing.
Defined.

End Cloud.

(** * The ContentAddressableStorage gRPC server *)

Module Server.

Record FindMissingBlobsRequest := {
  fm_InstanceName : string;
  BlobDigests : list (option DigestProto);
}.

Record FindMissingBlobsResponse := { MissingBlobDigests : list DigestProto }.

Record BatchUpdateBlobsRequest_Request := {
  rq_Digest : option DigestProto;
  rq_Data : bytes;
}.

Record BatchUpdateBlobsRequest := {
  bu_InstanceName : string;
  Requests : list BatchUpdateBlobsRequest_Request;
}.

Record BatchUpdateBlobsResponse_Response := {
  rs_Digest : option DigestProto;
  rs_Status : Status;
}.

Record BatchUpdateBlobsResponse := {
  Responses : list BatchUpdateBlobsResponse_Response;
}.

(** A call the server made on its BlobAccess, with what came back; [W]
    is the state of the backend behind the server. *)
Inductive Call (W : Type) :=
  | CallPut (d : Digest) (b : Buffer W) (err : option Error)
  | CallFindMissing (digests : DigestSet) (out : DigestSet * option Error).

Record ServerWorld (W : Type) := { backend : W; calls : list (Call W) }.

Record contentAddressableStorageServer (W : Type) := {
  contentAddressableStorage : BlobAccess W;
}.

Arguments CallPut {W} d b err.
Arguments CallFindMissing {W} digests out.
Arguments backend {W} _.
Arguments calls {W} _.
Arguments contentAddressableStorage {W} _.

(** ** The server in front of a cloud bucket *)

Definition cloud_server : contentAddressableStorageServer Cloud.World :=
  {| contentAddressableStorage :=
       Cloud.NewCloudBlobAccess Cloud.no_faults (λ s, s) Cloud.ToReader_simple
         "bazel_cas/" CAS |}.

Definition p_hello : DigestProto :=
  {| Hash := "8b1a9953c4611296a827abf8c47804d7"; SizeBytes := 5 |}.

Definition p_absent : DigestProto :=
  {| Hash := "d41d8cd98f00b204e9800998ecf8427e"; SizeBytes := 0 |}.

Definition p_malformed : DigestProto := {| Hash := "8b1a"; SizeBytes := 5 |}.

Definition sw_hello : ServerWorld Cloud.World :=
  {| backend := Cloud.w_hello; calls := [] |}.

Section Server.
Variable W : Type.

Definition call_FindMissing (s : contentAddressableStorageServer W) (ctx : Context)
    (digests : DigestSet) : State (ServerWorld W) (DigestSet * option Error) :=
  λ sw,
    let r := ba_FindMissing (contentAddressableStorage s) ctx digests (backend sw) in
    (r.1, {| backend := r.2; calls := calls sw ++ [CallFindMissing digests r.1] |}).

Definition call_Put (s : contentAddressableStorageServer W) (ctx : Context)
    (d : Digest) (b : Buffer W) : State (ServerWorld W) (option Error) :=
  λ sw,
    let r := ba_Put (contentAddressableStorage s) ctx d b (backend sw) in
    (r.1, {| backend := r.2; calls := calls sw ++ [CallPut d b r.1] |}).

(** The first loop of FindMissingBlobs. *)
Fixpoint collect_digests (instance : string) (partialDigests : list (option DigestProto))
    (inDigests : DigestSet) : Error + DigestSet :=
  match partialDigests with
  | [] => inr inDigests
  | partialDigest :: rest =>
      match NewDigestFromPartialDigest instance partialDigest with
      | inl err => inl err
      | inr digest => collect_digests instance rest ({[digest]} ∪ inDigests)
      end
  end.

Definition FindMissingBlobs (s : contentAddressableStorageServer W) (ctx : Context)
    (req : FindMissingBlobsRequest)
  : State (ServerWorld W) (option FindMissingBlobsResponse * option Error) :=
  match collect_digests (fm_InstanceName req) (BlobDigests req) ∅ with
  | inl err => ret (None, Some err)
  | inr inDigests =>
      out <- call_FindMissing s ctx inDigests ;;
      match out.2 with
      | Some err => ret (None, Some err)
      | None =>
          let partialDigests := map GetPartialDigest (Items out.1) in
          ret (Some {| MissingBlobDigests := partialDigests |}, None)
      end
  end.

(** The body of one goroutine of BatchUpdateBlobs, up to the value it
    sends on the channel. *)
Definition put_blob (s : contentAddressableStorageServer W) (ctx : Context)
    (instance : string) (request : BatchUpdateBlobsRequest_Request)
  : State (ServerWorld W) BatchUpdateBlobsResponse_Response :=
  match NewDigestFromPartialDigest instance (rq_Digest request) with
  | inl err =>
      ret {| rs_Digest := rq_Digest request; rs_Status := status_Convert (Some err) |}
  | inr digest =>
      err <- call_Put s ctx digest
               (NewCASBufferFromByteSlice digest (rq_Data request) UserProvided) ;;
      ret {| rs_Digest := rq_Digest request; rs_Status := status_Convert err |}
  end.

(** The goroutines, in the order [order] in which they come to their Put
    and send (an index names the goroutine of that request). The channel
    has room for every response, so no send waits; it is the queue of
    what was sent. *)
Fixpoint run_goroutines (s : contentAddressableStorageServer W) (ctx : Context)
    (req : BatchUpdateBlobsRequest) (order : list nat)
    (responsesChan : list BatchUpdateBlobsResponse_Response)
  : State (ServerWorld W) (list BatchUpdateBlobsResponse_Response) :=
  match order with
  | [] => ret responsesChan
  | i :: order' =>
      match Requests req !! i with
      | Some request =>
          response <- put_blob s ctx (bu_InstanceName req) request ;;
          run_goroutines s ctx req order' (responsesChan ++ [response])
      | None => run_goroutines s ctx req order' responsesChan
      end
  end.

(** The second loop: [n] receives, each appended to the response. A
    receive on a channel on which nothing more will be sent never
    returns: [None]. *)
Fixpoint recombine (n : nat) (responsesChan : list BatchUpdateBlobsResponse_Response)
    (responses : list BatchUpdateBlobsResponse_Response)
  : option (list BatchUpdateBlobsResponse_Response) :=
  match n with
  | O => Some responses
  | S n' =>
      match responsesChan with
      | [] => None
      | response :: rest => recombine n' rest (responses ++ [response])
      end
  end.

(** BatchUpdateBlobs under a given completion order of its goroutines;
    the outer [None] is a call that never returns. *)
Definition BatchUpdateBlobs (s : contentAddressableStorageServer W) (ctx : Context)
    (order : list nat) (req : BatchUpdateBlobsRequest)
  : State (ServerWorld W) (option (option BatchUpdateBlobsResponse * option Error)) :=
  responsesChan <- run_goroutines s ctx req order [] ;;
  match recombine (length (Requests req)) responsesChan [] with
  | Some responses => ret (Some (Some {| Responses := responses |}, None))
  | None => ret None
  end.

(** ** Properties *)

Lemma collect_digests_ok instance partialDigests (ds : list Digest) inDigests :
  Forall2 (λ p d, NewDigestFromPartialDigest instance p = inr d) partialDigests ds →
  collect_digests instance partialDigests inDigests = inr (list_to_set ds ∪ inDigests).
Proof.
  intros Hall. revert inDigests.
  induction Hall as [|p d ps ds Hp _ IH]; intros inDigests.
  - cbn. f_equal. set_solver.
  - cbn. rewrite Hp, IH. f_equal. set_solver.
Qed.

Lemma NewDigestFromPartialDigest_instance instance p d :
  NewDigestFromPartialDigest instance p = inr d → instanceName d = instance.
Proof.
  unfold NewDigestFromPartialDigest. destruct p as [p|]; [|done].
  destruct (negb _); [done|]. destruct (_ <? _); [done|]. by intros [= <-].
Qed.

(** C6. For a request whose digests all parse (to the digests [ds], each
    under the request's instance name), FindMissingBlobs makes one call
    on the BlobAccess, FindMissing of the set of all of them, and
    answers with the partial digests of the items of the set that
    FindMissing returned (or with the error that FindMissing returned). *)
Theorem FindMissingBlobs_delegates_once s ctx req sw (ds : list Digest) :
  Forall2 (λ p d, NewDigestFromPartialDigest (fm_InstanceName req) p = inr d)
    (BlobDigests req) ds →
  let inDigests : DigestSet := list_to_set ds in
  let out := ba_FindMissing (contentAddressableStorage s) ctx inDigests (backend sw) in
  let r := FindMissingBlobs s ctx req sw in
  Forall (λ d, instanceName d = fm_InstanceName req) ds
  ∧ calls r.2 = calls sw ++ [CallFindMissing inDigests out.1]
  ∧ backend r.2 = out.2
  ∧ r.1 = match out.1.2 with
          | None =>
              (Some {| MissingBlobDigests := map GetPartialDigest (Items out.1.1) |},
               None)
          | Some err => (None, Some err)
          end.
Proof.
  intros Hall inDigests out r. split.
  - clear -Hall. induction Hall as [|p d ps ds Hp _ IH]; constructor; [|done].
    by eapply NewDigestFromPartialDigest_instance.
  - unfold r, FindMissingBlobs. rewrite (collect_digests_ok _ _ ds) by done.
    replace (list_to_set ds ∪ ∅) with inDigests by (unfold inDigests; set_solver).
    unfold bind, call_FindMissing. cbn. fold out.
    by destruct (out.1.2).
Qed.

Definition digest_parses (instance : string) (request : BatchUpdateBlobsRequest_Request)
  : bool :=
  match NewDigestFromPartialDigest instance (rq_Digest request) with
  | inr _ => true
  | inl _ => false
  end.

Definition is_Put (c : Call W) : Prop :=
  match c with CallPut _ _ _ => True | CallFindMissing _ _ => False end.

(** [response] answers [request]: it carries the request's digest, and
    its status is that of the parse error, or of the error (or nil) that
    a Put of the request's data under its digest, among [puts], returned. *)
Definition answers (instance : string) (puts : list (Call W))
    (request : BatchUpdateBlobsRequest_Request)
    (response : BatchUpdateBlobsResponse_Response) : Prop :=
  rs_Digest response = rq_Digest request
  ∧ match NewDigestFromPartialDigest instance (rq_Digest request) with
    | inl err => rs_Status response = status_Convert (Some err)
    | inr digest =>
        ∃ err,
          CallPut digest (NewCASBufferFromByteSlice digest (rq_Data request) UserProvided)
            err ∈ puts
          ∧ rs_Status response = status_Convert err
    end.

Lemma answers_mono instance puts puts' request response :
  puts ⊆ puts' → answers instance puts request response →
  answers instance puts' request response.
Proof.
  intros Hsub [Hd Hs]. split; [done|].
  destruct (NewDigestFromPartialDigest instance (rq_Digest request)); [done|].
  destruct Hs as (err & Hin & Hst). exists err. split; [by apply Hsub|done].
Qed.

Lemma run_goroutines_cons s ctx req i order responsesChan sw :
  run_goroutines s ctx req (i :: order) responsesChan sw
  = match Requests req !! i with
    | Some request =>
        run_goroutines s ctx req order
          (responsesChan ++ [(put_blob s ctx (bu_InstanceName req) request sw).1])
          (put_blob s ctx (bu_InstanceName req) request sw).2
    | None => run_goroutines s ctx req order responsesChan sw
    end.
Proof. cbn. by destruct (Requests req !! i). Qed.

Lemma put_blob_run s ctx instance request sw :
  put_blob s ctx instance request sw
  = match NewDigestFromPartialDigest instance (rq_Digest request) with
    | inl err =>
        ({| rs_Digest := rq_Digest request; rs_Status := status_Convert (Some err) |},
         sw)
    | inr digest =>
        let b := NewCASBufferFromByteSlice digest (rq_Data request) UserProvided in
        let put := ba_Put (contentAddressableStorage s) ctx digest b (backend sw) in
        ({| rs_Digest := rq_Digest request; rs_Status := status_Convert put.1 |},
         {| backend := put.2; calls := calls sw ++ [CallPut digest b put.1] |})
    end.
Proof.
  unfold put_blob.
  by destruct (NewDigestFromPartialDigest instance (rq_Digest request)).
Qed.

Lemma run_goroutines_spec s ctx req order responsesChan sw :
  ∃ responses puts,
    (run_goroutines s ctx req order responsesChan sw).1 = responsesChan ++ responses
    ∧ calls (run_goroutines s ctx req order responsesChan sw).2 = calls sw ++ puts
    ∧ Forall2 (answers (bu_InstanceName req) puts)
        (omap (Requests req !!.) order) responses
    ∧ Forall is_Put puts
    ∧ length puts
      = length (filter (digest_parses (bu_InstanceName req))
                  (omap (Requests req !!.) order)).
Proof.
  revert responsesChan sw. induction order as [|i order IH]; intros responsesChan sw.
  - exists [], []. cbn. rewrite !app_nil_r. repeat split; constructor.
  - rewrite run_goroutines_cons. cbn [omap list_omap].
    destruct (Requests req !! i) as [request|] eqn:Hi; [|apply IH].
    set (step := put_blob s ctx (bu_InstanceName req) request sw).
    destruct (IH (responsesChan ++ [step.1]) step.2)
      as (responses & puts & Hchan & Hcalls & Hans & Hputs & Hlen).
    rewrite Hchan, Hcalls, filter_cons. clear Hchan Hcalls.
    assert (Hstep : step = put_blob s ctx (bu_InstanceName req) request sw) by done.
    rewrite put_blob_run in Hstep.
    assert (Hdp : digest_parses (bu_InstanceName req) request
                  = match NewDigestFromPartialDigest (bu_InstanceName req)
                            (rq_Digest request) with
                    | inr _ => true | inl _ => false end) by done.
    destruct (NewDigestFromPartialDigest (bu_InstanceName req) (rq_Digest request))
      as [err|digest] eqn:Hparse.
    + exists (step.1 :: responses), puts. rewrite decide_False by (rewrite Hdp; intros []).
      rewrite Hstep. cbn. rewrite <- app_assoc. cbn. repeat split; try done.
      constructor; [|done]. split; [done|]. by rewrite Hparse.
    + cbn zeta in Hstep.
      exists (step.1 :: responses), 
             (CallPut digest
                (NewCASBufferFromByteSlice digest (rq_Data request) UserProvided)
                (ba_Put (contentAddressableStorage s) ctx digest
                   (NewCASBufferFromByteSlice digest (rq_Data request) UserProvided)
                   (backend sw)).1 :: puts).
      rewrite decide_True by (rewrite Hdp; exact I). rewrite Hstep. cbn.
      rewrite <- !app_assoc. cbn.
      repeat split; try done.
      * constructor.
        -- split; [done|]. rewrite Hparse. eexists. split; [left|done].
        -- eapply Forall2_impl; [exact Hans|]. intros rq rs.
           apply answers_mono. set_solver.
      * by constructor.
      * by rewrite Hlen.
Qed.




(** ** Further properties of the server *)

Lemma collect_digests_err instance pre p post (ds : list Digest) err inDigests :
  Forall2 (λ p d, NewDigestFromPartialDigest instance p = inr d) pre ds →
  NewDigestFromPartialDigest instance p = inl err →
  collect_digests instance (pre ++ p :: post) inDigests = inl err.
Proof.
  intros Hall Hbad. revert inDigests.
  induction Hall as [|p0 d ps ds Hp _ IH]; intros inDigests; cbn.
  - by rewrite Hbad.
  - by rewrite Hp, IH.
Qed.

(** X8. A request with a digest that does not parse is refused with the
    error of the first such digest, before anything is asked of the
    BlobAccess: the world is as it was, whatever the digests after it. *)
Theorem FindMissingBlobs_rejects_bad_digest s ctx req sw pre p post (ds : list Digest) err :
  BlobDigests req = pre ++ p :: post →
  Forall2 (λ p d, NewDigestFromPartialDigest (fm_InstanceName req) p = inr d) pre ds →
  NewDigestFromPartialDigest (fm_InstanceName req) p = inl err →
  FindMissingBlobs s ctx req sw = ((None, Some err), sw).
Proof.
  intros Hreq Hall Hbad. unfold FindMissingBlobs.
  by rewrite Hreq, (collect_digests_err _ _ _ _ ds err).
Qed.

Lemma recombine_Some n responsesChan responses out :
  recombine n responsesChan responses = Some out →
  out = responses ++ take n responsesChan ∧ (n ≤ length responsesChan)%nat.
Proof.
  revert responsesChan responses.
  induction n as [|n IH]; intros responsesChan responses; cbn.
  - intros [= <-]. rewrite take_0, app_nil_r. split; [done|lia].
  - destruct responsesChan as [|x rest]; [done|]. intros Hrec.
    destruct (IH _ _ Hrec) as [-> Hn]. cbn. rewrite <- app_assoc. split; [done|lia].
Qed.

Lemma recombine_None n responsesChan responses :
  (length responsesChan < n)%nat → recombine n responsesChan responses = None.
Proof.
  revert responsesChan responses.
  induction n as [|n IH]; intros responsesChan responses Hlt; [lia|].
  destruct responsesChan as [|x rest]; [done|]. cbn. apply IH. cbn in Hlt. lia.
Qed.

(** What is on the channel when every goroutine of [order] has sent: the
    responses to the requests of [order], in that order. *)
Lemma run_goroutines_digests s ctx req order responsesChan sw :
  ∃ responses,
    (run_goroutines s ctx req order responsesChan sw).1 = responsesChan ++ responses
    ∧ map rs_Digest responses = map rq_Digest (omap (Requests req !!.) order).
Proof.
  destruct (run_goroutines_spec s ctx req order responsesChan sw)
    as (responses & puts & Hchan & _ & Hans & _).
  exists responses. split; [done|]. clear Hchan.
  induction Hans as [|rq rs rqs rss [Hd _] _ IH]; [done|]. cbn. by rewrite Hd, IH.
Qed.

(** X9. When BatchUpdateBlobs returns, it returns no error and a response
    with one element per request element, in the order in which the
    goroutines completed their Put, which need not be the order of the
    request: a caller must match responses to requests by digest. *)
Theorem BatchUpdateBlobs_in_completion_order s ctx order req sw out :
  (BatchUpdateBlobs s ctx order req sw).1 = Some out →
  ∃ responses,
    out = (Some {| Responses := responses |}, None)
    ∧ length responses = length (Requests req)
    ∧ map rs_Digest responses
      = take (length (Requests req)) (map rq_Digest (omap (Requests req !!.) order)).
Proof.
  unfold BatchUpdateBlobs, bind.
  destruct (run_goroutines_digests s ctx req order [] sw) as (sent & Hchan & Hdigests).
  rewrite Hchan. cbn [app].
  destruct (recombine (length (Requests req)) sent []) as [responses|] eqn:Hrec; [|done].
  cbn. intros [= <-]. exists responses. split; [done|].
  apply recombine_Some in Hrec as [-> Hn]. cbn.
  split; [rewrite length_take; lia|]. rewrite <- Hdigests. apply (fmap_take rs_Digest).
Qed.

(** X10. BatchUpdateBlobs has no way out but to receive one response per
    request element: as long as fewer goroutines than that have completed,
    it does not return. *)
Theorem BatchUpdateBlobs_waits_for_every_Put s ctx order req sw :
  (length (omap (Requests req !!.) order) < length (Requests req))%nat →
  (BatchUpdateBlobs s ctx order req sw).1 = None.
Proof.
  intros Hfew. unfold BatchUpdateBlobs, bind.
  destruct (run_goroutines_digests s ctx req order [] sw) as (sent & Hchan & Hdigests).
  rewrite Hchan. cbn [app]. rewrite recombine_None; [done|].
  apply (f_equal length) in Hdigests. rewrite !length_map in Hdigests. lia.
Qed.

(** FindMissingBlobs on digests that parse, step by step. *)
Lemma FindMissingBlobs_run s ctx req sw (ds : list Digest) :
  Forall2 (λ p d, NewDigestFromPartialDigest (fm_InstanceName req) p = inr d)
    (BlobDigests req) ds →
  FindMissingBlobs s ctx req sw
  = let out := ba_FindMissing (contentAddressableStorage s) ctx (list_to_set ds)
                 (backend sw) in
    (match out.1.2 with
     | None =>
         (Some {| MissingBlobDigests := map GetPartialDigest (Items out.1.1) |}, None)
     | Some err => (None, Some err)
     end,
     {| backend := out.2;
        calls := calls sw ++ [CallFindMissing (list_to_set ds) out.1] |}).
Proof.
  intros Hall. unfold FindMissingBlobs. rewrite (collect_digests_ok _ _ ds) by done.
  replace (list_to_set ds ∪ ∅ : DigestSet) with (list_to_set ds : DigestSet) by set_solver.
  unfold bind, call_FindMissing. cbn.
  by destruct ((ba_FindMissing (contentAddressableStorage s) ctx (list_to_set ds)
                  (backend sw)).1.2).
Qed.

End Server.

(** ** The code in front of the cloud bucket *)

Example BatchUpdateBlobs_partial_success :
  (BatchUpdateBlobs Cloud.World cloud_server 0%nat [1; 0]%nat
     {| bu_InstanceName := "main";
        Requests := [ {| rq_Digest := Some p_malformed; rq_Data := Cloud.hello |};
                      {| rq_Digest := Some p_hello; rq_Data := Cloud.hello |} ] |}
     {| backend := {| Cloud.objects := ∅; Cloud.ctxs := []; Cloud.trace := [] |};
        calls := [] |}).1
  = Some (Some {| Responses :=
                    [ {| rs_Digest := Some p_hello;
                         rs_Status := {| st_code := OK; st_message := "" |} |};
                      {| rs_Digest := Some p_malformed;
                         rs_Status :=
                           {| st_code := InvalidArgument;
                              st_message := "Unknown digest hash length: 4 characters" |} |} ] |},
          None).
Proof. reflexivity. Qed.

Lemma FindMissingBlobs_delegates_once_witness :
  (FindMissingBlobs Cloud.World cloud_server 0%nat
     {| fm_InstanceName := "main"; BlobDigests := [Some p_hello; Some p_absent] |}
     sw_hello).1
  = (Some {| MissingBlobDigests := [p_absent] |}, None).
Proof.
  destruct (FindMissingBlobs_delegates_once Cloud.World cloud_server 0%nat
              {| fm_InstanceName := "main"; BlobDigests := [Some p_hello; Some p_absent] |}
              sw_hello [Cloud.d_hello; Cloud.d_absent]) as (_ & _ & _ & Hres).
  - repeat constructor.
  - rewrite Hres. by vm_compute.
Defined.


(** ** The server in front of any cloud bucket *)

(** X11. FindMissingBlobs in front of the cloud backend, on a request
    whose digests all parse and whose existence checks the bucket
    answers: the response lists, each once, the partial digests of exactly
    those request digests whose key the bucket does not hold, and the
    bucket is left as it was. *)
Theorem FindMissingBlobs_on_cloud F fmt_Sprintf ToReader keyPrefix storageType
    ctx req sw (ds : list Digest) :
  let ba := {| Cloud.keyPrefix := keyPrefix; Cloud.storageType := storageType |} in
  let s := {| contentAddressableStorage :=
                Cloud.NewCloudBlobAccess F fmt_Sprintf ToReader keyPrefix storageType |} in
  Forall2 (λ p d, NewDigestFromPartialDigest (fm_InstanceName req) p = inr d)
    (BlobDigests req) ds →
  (∀ d, d ∈ ds → Cloud.f_exists F (Cloud.getKey ba d) = None) →
  ∃ missing,
    (FindMissingBlobs Cloud.World s ctx req sw).1
    = (Some {| MissingBlobDigests := map GetPartialDigest missing |}, None)
    ∧ NoDup missing
    ∧ (∀ d, d ∈ missing ↔
            d ∈ ds ∧ Cloud.objects (backend sw) !! Cloud.getKey ba d = None)
    ∧ Cloud.objects (backend (FindMissingBlobs Cloud.World s ctx req sw).2)
      = Cloud.objects (backend sw).
Proof.
  intros ba s Hall Hok. rewrite (FindMissingBlobs_run _ s ctx req sw ds Hall).
  cbn zeta. cbn [fst snd backend].
  change (ba_FindMissing (contentAddressableStorage s) ctx (list_to_set ds) (backend sw))
    with (Cloud.FindMissing F ba ctx (list_to_set ds) (backend sw)).
  destruct (Cloud.FindMissing_cases F ba ctx (list_to_set ds) (backend sw))
    as [Hres|(d & e & Hd & He & _)].
  - rewrite Hres. cbn [fst snd].
    exists (Items (Cloud.reported_absent F ba (Cloud.objects (backend sw)) (list_to_set ds))).
    split; [done|]. split; [apply NoDup_elements|]. split.
    + intros d. unfold Items, Cloud.reported_absent.
      rewrite elem_of_elements, elem_of_filter, elem_of_list_to_set.
      unfold Cloud.exists_answer. split.
      * intros [Habsent Hd]. split; [done|]. rewrite (Hok d Hd) in Habsent.
        destruct (Cloud.objects (backend sw) !! Cloud.getKey ba d) eqn:E; [|done].
        rewrite bool_decide_true in Habsent by done. done.
      * intros [Hd Hnone]. split; [|done]. rewrite (Hok d Hd), Hnone.
        by rewrite bool_decide_false by (by intros [? ?]).
    + unfold Cloud.FindMissing. apply Cloud.FindMissing_loop_frame.
  - exfalso. apply elem_of_list_to_set in Hd. unfold Cloud.exists_answer in He.
    by rewrite (Hok d Hd) in He.
Qed.

(** The goroutines in front of a cloud bucket that refuses no close, under
    a live context of the caller: the context stays live, no object is
    lost, and every Put that returned nil has its key in the bucket. *)
Lemma run_goroutines_on_cloud F fmt_Sprintf ToReader keyPrefix storageType
    ctx req order responsesChan sw :
  let ba := {| Cloud.keyPrefix := keyPrefix; Cloud.storageType := storageType |} in
  let s := {| contentAddressableStorage :=
                Cloud.NewCloudBlobAccess F fmt_Sprintf ToReader keyPrefix storageType |} in
  (∀ k, Cloud.f_close F k = None) →
  Cloud.ctxs (backend sw) !! ctx = Some false →
  let r := run_goroutines Cloud.World s ctx req order responsesChan sw in
  Cloud.ctxs (backend r.2) !! ctx = Some false
  ∧ (∀ k, is_Some (Cloud.objects (backend sw) !! k) →
          is_Some (Cloud.objects (backend r.2) !! k))
  ∧ ∃ puts, calls r.2 = calls sw ++ puts
      ∧ ∀ d b, CallPut d b None ∈ puts →
          is_Some (Cloud.objects (backend r.2) !! Cloud.getKey ba d).
Proof.
  intros ba s Hclose. revert responsesChan sw.
  induction order as [|i order IH]; intros responsesChan sw Hlive r.
  - subst r. cbn. split; [done|]. split; [done|]. exists []. rewrite app_nil_r.
    split; [done|]. intros d b Hin. by apply elem_of_nil in Hin.
  - subst r. rewrite run_goroutines_cons.
    destruct (Requests req !! i) as [request|]; [|by apply IH].
    rewrite put_blob_run.
    destruct (NewDigestFromPartialDigest (bu_InstanceName req) (rq_Digest request))
      as [err|digest]; [by apply IH|].
    cbn zeta. cbn [fst snd].
    set (b := NewCASBufferFromByteSlice digest (rq_Data request) UserProvided).
    change (ba_Put (contentAddressableStorage s) ctx digest b (backend sw))
      with (Cloud.Put F ToReader ba ctx digest b (backend sw)).
    set (put := Cloud.Put F ToReader ba ctx digest b (backend sw)).
    set (sw1 := {| backend := put.2; calls := calls sw ++ [CallPut digest b put.1] |}).
    assert (Hlive1 : Cloud.ctxs (backend sw1) !! ctx = Some false).
    { cbn. unfold put. rewrite Cloud.Put_ctxs.
      assert (ctx < length (Cloud.ctxs (backend sw)))%nat
        by (eapply lookup_lt_Some; exact Hlive).
      rewrite list_lookup_insert_ne by lia. by rewrite lookup_app_l. }
    destruct (IH (responsesChan ++ [{| rs_Digest := rq_Digest request;
                                      rs_Status := status_Convert put.1 |}]) sw1 Hlive1)
      as (Hlive' & Hkeep & puts & Hcalls & Hstored).
    split; [exact Hlive'|]. split.
    + intros k Hk. apply Hkeep. cbn. by apply Cloud.Put_keeps_objects.
    + exists (CallPut digest b put.1 :: puts). split.
      * rewrite Hcalls. cbn. by rewrite <- app_assoc.
      * intros d b' Hin. apply elem_of_cons in Hin as [Heq|Hin]; [|by eapply Hstored].
        injection Heq as Hd Hb Hr. subst d b'. apply Hkeep. cbn.
        assert (Hobj : Cloud.objects put.2
                       = <[Cloud.getKey ba digest :=
                             concat (chunks (ToReader b))]> (Cloud.objects (backend sw))).
        { apply Cloud.Put_success_objects; [done| |apply Hclose].
          unfold Cloud.is_cancelled. by rewrite Hlive. }
        rewrite Hobj. by rewrite lookup_insert_eq.
Qed.

(** X12. BatchUpdateBlobs in front of a cloud bucket that refuses no
    close, under a live context of the caller, whatever else fails: every
    element whose Put returned nil has its key in the bucket when all
    goroutines are done, and no object that was in the bucket is lost. *)
Theorem BatchUpdateBlobs_on_cloud_stores F fmt_Sprintf ToReader keyPrefix storageType
    ctx order req sw :
  let ba := {| Cloud.keyPrefix := keyPrefix; Cloud.storageType := storageType |} in
  let s := {| contentAddressableStorage :=
                Cloud.NewCloudBlobAccess F fmt_Sprintf ToReader keyPrefix storageType |} in
  (∀ k, Cloud.f_close F k = None) →
  Cloud.ctxs (backend sw) !! ctx = Some false →
  let r := BatchUpdateBlobs Cloud.World s ctx order req sw in
  (∀ k, is_Some (Cloud.objects (backend sw) !! k) →
        is_Some (Cloud.objects (backend r.2) !! k))
  ∧ ∃ puts, calls r.2 = calls sw ++ puts
      ∧ ∀ d b, CallPut d b None ∈ puts →
          is_Some (Cloud.objects (backend r.2) !! Cloud.getKey ba d).
Proof.
  intros ba s Hclose Hlive r.
  destruct (run_goroutines_on_cloud F fmt_Sprintf ToReader keyPrefix storageType
              ctx req order [] sw Hclose Hlive) as (_ & Hkeep & Hputs).
  assert (Hr : r.2 = (run_goroutines Cloud.World s ctx req order [] sw).2).
  { unfold r, BatchUpdateBlobs, bind. by destruct (recombine _ _ _). }
  rewrite Hr. by split.
Qed.

(** A batch of a malformed element and a good one, and a world in which
    the context of the caller is registered and live. *)
Definition req_batch : BatchUpdateBlobsRequest :=
  {| bu_InstanceName := "main";
     Requests := [ {| rq_Digest := Some p_malformed; rq_Data := Cloud.hello |};
                   {| rq_Digest := Some p_hello; rq_Data := Cloud.hello |} ] |}.

Definition sw_live : ServerWorld Cloud.World :=
  {| backend := {| Cloud.objects := ∅; Cloud.ctxs := [false]; Cloud.trace := [] |};
     calls := [] |}.

Lemma FindMissingBlobs_rejects_bad_digest_witness :
  FindMissingBlobs Cloud.World cloud_server 0%nat
    {| fm_InstanceName := "main";
       BlobDigests := [Some p_hello; Some p_malformed; Some p_absent] |} sw_hello
  = ((None, Some (StatusErr InvalidArgument "Unknown digest hash length: 4 characters")),
     sw_hello).
Proof.
  apply (FindMissingBlobs_rejects_bad_digest Cloud.World cloud_server 0%nat
           {| fm_InstanceName := "main";
              BlobDigests := [Some p_hello; Some p_malformed; Some p_absent] |} sw_hello
           [Some p_hello] (Some p_malformed) [Some p_absent] [Cloud.d_hello]).
  - reflexivity.
  - repeat constructor.
  - reflexivity.
Defined.

Lemma BatchUpdateBlobs_in_completion_order_witness :
  ∃ responses,
    length responses = 2%nat
    ∧ map rs_Digest responses = [Some p_hello; Some p_malformed].
Proof.
  destruct (BatchUpdateBlobs_in_completion_order Cloud.World cloud_server 0%nat
              [1; 0]%nat req_batch sw_live
              (Some {| Responses :=
                         [ {| rs_Digest := Some p_hello;
                              rs_Status := {| st_code := OK; st_message := "" |} |};
                           {| rs_Digest := Some p_malformed;
                              rs_Status :=
                                {| st_code := InvalidArgument;
                                   st_message :=
                                     "Unknown digest hash length: 4 characters" |} |} ] |},
               None) eq_refl) as (responses & _ & Hlen & Hdigests).
  exists responses. split; [exact Hlen|exact Hdigests].
Defined.

Lemma BatchUpdateBlobs_waits_for_every_Put_witness :
  (BatchUpdateBlobs Cloud.World cloud_server 0%nat [1]%nat req_batch sw_live).1 = None.
Proof.
  apply (BatchUpdateBlobs_waits_for_every_Put Cloud.World cloud_server 0%nat [1]%nat
           req_batch sw_live).
  cbn. lia.
Defined.

Lemma FindMissingBlobs_on_cloud_witness :
  ∃ missing,
    (FindMissingBlobs Cloud.World cloud_server 0%nat
       {| fm_InstanceName := "main"; BlobDigests := [Some p_hello; Some p_absent] |}
       sw_hello).1
    = (Some {| MissingBlobDigests := map GetPartialDigest missing |}, None)
    ∧ (Cloud.d_absent ∈ missing) ∧ (Cloud.d_hello ∉ missing).
Proof.
  destruct (FindMissingBlobs_on_cloud Cloud.no_faults (λ s, s) Cloud.ToReader_simple
              "bazel_cas/" CAS 0%nat
              {| fm_InstanceName := "main"; BlobDigests := [Some p_hello; Some p_absent] |}
              sw_hello [Cloud.d_hello; Cloud.d_absent])
    as (missing & Hres & _ & Hmem & _).
  - repeat constructor.
  - reflexivity.
  - exists missing. split; [exact Hres|]. split.
    + apply Hmem. split; [right; left|].
      vm_compute. reflexivity.
    + intros Hin. apply Hmem in Hin as [_ Habs]. vm_compute in Habs. discriminate Habs.
Defined.

Lemma BatchUpdateBlobs_on_cloud_stores_witness :
  ∃ puts,
    calls (BatchUpdateBlobs Cloud.World cloud_server 0%nat [1; 0]%nat req_batch sw_live).2
    = puts
    ∧ ∀ d b, CallPut d b None ∈ puts →
        is_Some (Cloud.objects
                   (backend (BatchUpdateBlobs Cloud.World cloud_server 0%nat [1; 0]%nat
                               req_batch sw_live).2)
                 !! Cloud.getKey Cloud.ba_cas d).
Proof.
  destruct (BatchUpdateBlobs_on_cloud_stores Cloud.no_faults (λ s, s) Cloud.ToReader_simple
              "bazel_cas/" CAS 0%nat [1; 0]%nat req_batch sw_live)
    as (_ & puts & Hcalls & Hstored).
  - reflexivity.
  - reflexivity.
  - exists puts. split; [exact Hcalls|exact Hstored].
Defined.

End Server.

(** * The BlobAccess-backed ContentAddressableStorage

    This file of the repository is written against the earlier form of the
    BlobAccess interface, in which Get returns a size, a reader and an
    error, and Put takes the size and a reader. *)

Module BlobCAS.

(** [uint64(x)] of a 64-bit signed integer. *)
Definition uint64 (x : Z) : Z := x mod 2 ^ 64.

Definition MaxInt64 : Z := 2 ^ 63 - 1.

(** File modes 0444 and 0555. *)
Definition mode_0444 : Z := 4 * 64 + 4 * 8 + 4.
Definition mode_0555 : Z := 5 * 64 + 5 * 8 + 5.

(** The first [n] bytes of a list, and the list without them; [n] is a
    64-bit offset or length, not a unary number. *)
Fixpoint takeZ (n : Z) (l : bytes) : bytes :=
  match l with
  | [] => []
  | x :: l' => if n <=? 0 then [] else x :: takeZ (n - 1) l'
  end.

Fixpoint dropZ (n : Z) (l : bytes) : bytes :=
  match l with
  | [] => []
  | x :: l' => if n <=? 0 then l else dropZ (n - 1) l'
  end.

(** ** The directory ([filesystem.Directory]) *)

Record File := { f_mode : Z; f_content : bytes }.

Abbreviation Dir := (gmap string File).

(** An open file, named by the entry it was opened as. *)
Abbreviation FileReader := string.
Abbreviation FileAppender := string.

Inductive CreationMode := CreateExcl (perm : Z).

Record DirFaults := {
  f_open_append : string → option Error;
  f_open_read : string → option Error;
  f_read : string → option Error;
  f_append : string → bytes → bytes → option Error;
  f_remove : string → option Error;
}.

(** [io.SectionReader] and the reader [newSectionReadCloser] builds of it. *)
Record SectionReader := { sr_r : FileReader; sr_off : Z; sr_n : Z }.

Record SectionReadCloser := { sr_SectionReader : SectionReader; sr_Closer : FileReader }.

Definition io_NewSectionReader (r : FileReader) (off n : Z) : SectionReader :=
  {| sr_r := r; sr_off := off; sr_n := n |}.

Definition newSectionReadCloser (r : FileReader) (off n : Z) : SectionReadCloser :=
  {| sr_SectionReader := io_NewSectionReader r off n; sr_Closer := r |}.

(** [proto.Message]: the zero value of a message type and
    [proto.Unmarshal] into a message of that type. *)
Class ProtoMessage (M : Type) := {
  zero : M;
  proto_Unmarshal : bytes → M → M * option Error;
}.

(** The BlobAccess interface as this file has it, over the state [W] of
    the backend. *)
Record BlobAccess (W : Type) := {
  ba_Get : Context → Digest → State W (Error + Z * Stream);
  ba_Put : Context → Digest → Z → Stream → State W (option Error);
}.

(** A call made on the BlobAccess; for Put, with the reader given and
    the bytes that reading it to the end yields. *)
Inductive Call :=
  | CallGet (d : Digest)
  | CallPut (d : Digest) (size : Z) (r : SectionReadCloser) (uploaded : Stream).

(** The backend, the directory that GetFile and PutFile are given, and the
    calls made on the backend so far. *)
Record World (W : Type) := { backend : W; dir : Dir; calls : list Call }.

Record blobAccessContentAddressableStorage (W : Type) := {
  blobAccess : BlobAccess W;
  maximumMessageSizeBytes : Z;
}.

Arguments ba_Get {W} _ _ _.
Arguments ba_Put {W} _ _ _ _.
Arguments backend {W} _.
Arguments dir {W} _.
Arguments calls {W} _.
Arguments blobAccess {W} _.
Arguments maximumMessageSizeBytes {W} _.

(** ** An in-memory backend and directory, for running the code *)

Definition no_faults : DirFaults :=
  {| f_open_append := λ _, None; f_open_read := λ _, None; f_read := λ _, None;
     f_append := λ _ _ _, None; f_remove := λ _, None |}.

Definition memory : BlobAccess (gmap Digest bytes) :=
  {| ba_Get := λ _ d st,
       (match st !! d with
        | Some data => inr (Z.of_nat (length data), {| chunks := [data]; final := None |})
        | None => inl (StatusErr NotFound "Blob not found")
        end, st);
     ba_Put := λ _ d _ r st,
       match final r with
       | Some err => (Some err, st)
       | None => (None, <[d := concat (chunks r)]> st)
       end |}.

Definition cas_memory : blobAccessContentAddressableStorage (gmap Digest bytes) :=
  {| blobAccess := memory; maximumMessageSizeBytes := 4 |}.

(** Messages that are their own encoding. *)
Definition raw_message : ProtoMessage bytes :=
  {| zero := []; proto_Unmarshal := λ data _, (data, None) |}.

Definition d_hello : Digest :=
  {| instanceName := "main"; hashHex := "8b1a9953c4611296a827abf8c47804d7";
     sizeBytes := 5 |}.

Definition d_hell : Digest :=
  {| instanceName := "main"; hashHex := "4229d691b07b13341da53f17ab9f2416";
     sizeBytes := 4 |}.

Definition hello : bytes := [Byte.x48; Byte.x65; Byte.x6c; Byte.x6c; Byte.x6f].

Definition w_empty : World (gmap Digest bytes) :=
  {| backend := ∅; dir := ∅; calls := [] |}.

Definition w_log : World (gmap Digest bytes) :=
  {| backend := ∅;
     dir := {[ "stdout" := {| f_mode := mode_0444; f_content := hello |} ]};
     calls := [] |}.

(** Another process writing one more line to every file. *)
Definition one_more_line (d : Dir) : Dir :=
  (λ f, {| f_mode := f_mode f; f_content := f_content f ++ [Byte.x0a] |}) <$> d.

(** A backend whose readers break after the first chunk. *)
Definition flaky : BlobAccess (gmap Digest bytes) :=
  {| ba_Get := λ _ d st,
       (inr (sizeBytes d, {| chunks := [[Byte.x48]];
                             final := Some (PlainErr "connection reset") |}), st);
     ba_Put := ba_Put memory |}.

Section BlobCAS.
(** The state of the backend, and the failures of the directory. *)
Variable W : Type.
Variable DF : DirFaults.

Definition set_dir (f : Dir → Dir) : State (World W) unit :=
  modify (λ w, {| backend := backend w; dir := f (dir w); calls := calls w |}).

Definition content_of (d : Dir) (name : string) : bytes :=
  default [] (f_content <$> d !! name).

(** What reading a section reader to its end yields, in a directory. *)
Definition section_stream (d : Dir) (sr : SectionReader) : Stream :=
  match f_read DF (sr_r sr) with
  | Some err => {| chunks := []; final := Some err |}
  | None =>
      {| chunks := [takeZ (sr_n sr) (dropZ (sr_off sr) (content_of d (sr_r sr)))];
         final := None |}
  end.

(** [directory.OpenAppend(name, filesystem.CreateExcl(mode))]: the file
    is created, empty, with the given mode; it is an error for the name
    to exist. *)
Definition directory_OpenAppend (name : string) (creationMode : CreationMode)
  : State (World W) (Error + FileAppender) :=
  match f_open_append DF name with
  | Some err => ret (inl err)
  | None =>
      present <- gets (λ w, bool_decide (is_Some (dir w !! name))) ;;
      if (present : bool) then ret (inl (PlainErr "file exists"))
      else
        let 'CreateExcl perm := creationMode in
        set_dir (<[name := {| f_mode := perm; f_content := [] |}]>) ;;;
        ret (inr name)
  end.

Definition directory_OpenRead (name : string) : State (World W) (Error + FileReader) :=
  match f_open_read DF name with
  | Some err => ret (inl err)
  | None =>
      present <- gets (λ w, bool_decide (is_Some (dir w !! name))) ;;
      if (present : bool) then ret (inr name)
      else ret (inl (PlainErr "no such file or directory"))
  end.

Definition directory_Remove (name : string) : State (World W) (option Error) :=
  match f_remove DF name with
  | Some err => ret (Some err)
  | None =>
      present <- gets (λ w, bool_decide (is_Some (dir w !! name))) ;;
      if (present : bool) then set_dir (delete name) ;;; ret None
      else ret (Some (PlainErr "no such file or directory"))
  end.

Definition file_Write (w : FileAppender) (chunk : bytes) : State (World W) (option Error) :=
  written <- gets (λ s, content_of (dir s) w) ;;
  match f_append DF w written chunk with
  | Some err => ret (Some err)
  | None =>
      set_dir (alter (λ f, {| f_mode := f_mode f; f_content := f_content f ++ chunk |}) w) ;;;
      ret None
  end.

(** [io.Copy(w, r)] into a file. *)
Fixpoint io_Copy (w : FileAppender) (cs : list bytes) (fin : option Error)
  : State (World W) (option Error) :=
  match cs with
  | [] => ret fin
  | c :: cs' =>
      err <- file_Write w c ;;
      match err with
      | Some e => ret (Some e)
      | None => io_Copy w cs' fin
      end
  end.

(** [ioutil.ReadAll(r)]. *)
Definition ioutil_ReadAll (r : Stream) : bytes * option Error :=
  (concat (chunks r), final r).

(** ** Digest generators *)

(** The digest function that digests of the kind of a given digest use. *)
Variable digest_function : Digest → bytes → string.

(** Modelled from the spec: the digest generator of [Digest]
    ([NewDigestGenerator], [Write], [Sum]), which is not among the
    sources: a fresh generator of the same digest function, fed the bytes
    of a blob, gives the digest of that blob, its hash and its size, in
    the instance of the parent. *)
Record DigestGenerator := { dg_parent : Digest; dg_written : bytes }.

(** Modelled from the spec: [parentDigest.NewDigestGenerator()], a fresh
    generator of the same function. *)
Definition NewDigestGenerator (parentDigest : Digest) : DigestGenerator :=
  {| dg_parent := parentDigest; dg_written := [] |}.

(** Modelled from the spec: [digestGenerator.Write(p)], which takes in
    all of [p]. *)
Definition DigestGenerator_Write (g : DigestGenerator) (p : bytes) : DigestGenerator :=
  {| dg_parent := dg_parent g; dg_written := dg_written g ++ p |}.

(** Modelled from the spec: [digestGenerator.Sum()], the digest of the
    bytes written: their hash and their count. *)
Definition DigestGenerator_Sum (g : DigestGenerator) : Digest :=
  {| instanceName := instanceName (dg_parent g);
     hashHex := digest_function (dg_parent g) (dg_written g);
     sizeBytes := Z.of_nat (length (dg_written g)) |}.

(** [io.Copy(digestGenerator, r)]: the generator, the count of bytes
    copied and the error. *)
Fixpoint io_Copy_digest (g : DigestGenerator) (written : Z) (cs : list bytes)
    (fin : option Error) : DigestGenerator * Z * option Error :=
  match cs with
  | [] => (g, written, fin)
  | c :: cs' =>
      io_Copy_digest (DigestGenerator_Write g c) (written + Z.of_nat (length c)) cs' fin
  end.

(** ** blobAccessContentAddressableStorage *)

Definition call_Get (cas : blobAccessContentAddressableStorage W) (ctx : Context)
    (digest : Digest) : State (World W) (Error + Z * Stream) :=
  λ w,
    let r := ba_Get (blobAccess cas) ctx digest (backend w) in
    (r.1, {| backend := r.2; dir := dir w; calls := calls w ++ [CallGet digest] |}).

(** Put reads its reader in the directory as it is when Put is called. *)
Definition call_Put (cas : blobAccessContentAddressableStorage W) (ctx : Context)
    (digest : Digest) (sizeBytes : Z) (rc : SectionReadCloser)
  : State (World W) (option Error) :=
  λ w,
    let uploaded := section_stream (dir w) (sr_SectionReader rc) in
    let r := ba_Put (blobAccess cas) ctx digest sizeBytes uploaded (backend w) in
    (r.1, {| backend := r.2; dir := dir w;
             calls := calls w ++ [CallPut digest sizeBytes rc uploaded] |}).

Definition too_large (sizeBytes maximum : Z) : Error :=
  StatusErr InvalidArgument
    ("Refusing to unmarshal message of size " +:+ pretty sizeBytes
     +:+ ", as it exceeds the maximum size of " +:+ pretty maximum).

Definition getMessage {M} `{!ProtoMessage M}
    (cas : blobAccessContentAddressableStorage W) (ctx : Context) (digest : Digest)
    (message : M) : State (World W) (M * option Error) :=
  let sizeBytes := GetSizeBytes digest in
  if uint64 sizeBytes >? maximumMessageSizeBytes cas then
    ret (message, Some (too_large sizeBytes (maximumMessageSizeBytes cas)))
  else
    got <- call_Get cas ctx digest ;;
    match got with
    | inl err => ret (message, Some err)
    | inr (_, r) =>
        let '(data, err) := ioutil_ReadAll r in
        match err with
        | Some err => ret (message, Some err)
        | None => ret (proto_Unmarshal data message)
        end
    end.

(** The body shared by GetAction, GetUncachedActionResult, GetCommand,
    GetDirectory and GetTree: a message of the type, zero at first. *)
Definition getTyped {M} `{!ProtoMessage M}
    (cas : blobAccessContentAddressableStorage W) (ctx : Context) (digest : Digest)
  : State (World W) (option M * option Error) :=
  r <- getMessage cas ctx digest zero ;;
  match r.2 with
  | Some err => ret (None, Some err)
  | None => ret (Some r.1, None)
  end.

Context {Action UncachedActionResult Command Directory Tree : Type}.
Context `{!ProtoMessage Action, !ProtoMessage UncachedActionResult,
          !ProtoMessage Command, !ProtoMessage Directory, !ProtoMessage Tree}.

Definition GetAction := getTyped (M := Action).
Definition GetUncachedActionResult := getTyped (M := UncachedActionResult).
Definition GetCommand := getTyped (M := Command).
Definition GetDirectory := getTyped (M := Directory).
Definition GetTree := getTyped (M := Tree).

(** Closing the file and the reader changes nothing that is modelled:
    [w.Close()] and [r.Close()] leave no step. *)
Definition GetFile (cas : blobAccessContentAddressableStorage W) (ctx : Context)
    (digest : Digest) (name : string) (isExecutable : bool)
  : State (World W) (option Error) :=
  let mode := if isExecutable then mode_0555 else mode_0444 in
  opened <- directory_OpenAppend name (CreateExcl mode) ;;
  match opened with
  | inl err => ret (Some err)
  | inr w =>
      got <- call_Get cas ctx digest ;;
      match got with
      | inl err => ret (Some err)
      | inr (_, r) =>
          err <- io_Copy w (chunks r) (final r) ;;
          match err with
          | Some _ => directory_Remove name ;;; ret err
          | None => ret err
          end
      end
  end.

(** What other processes do to the directory while PutFile runs, between
    its two passes over the file. *)
Definition interference (env : Dir → Dir) : State (World W) unit := set_dir env.

Definition PutFile (cas : blobAccessContentAddressableStorage W) (ctx : Context)
    (env : Dir → Dir) (name : string) (parentDigest : Digest)
  : State (World W) (option Digest * option Error) :=
  opened <- directory_OpenRead name ;;
  match opened with
  | inl err => ret (None, Some err)
  | inr file =>
      let digestGenerator := NewDigestGenerator parentDigest in
      r <- gets (λ w, section_stream (dir w) (io_NewSectionReader file 0 MaxInt64)) ;;
      let '(digestGenerator, sizeBytes, err) :=
        io_Copy_digest digestGenerator 0 (chunks r) (final r) in
      match err with
      | Some err => ret (None, Some err)
      | None =>
          let digest := DigestGenerator_Sum digestGenerator in
          interference env ;;;
          err <- call_Put cas ctx digest (GetSizeBytes digest)
                   (newSectionReadCloser file 0 sizeBytes) ;;
          match err with
          | Some err => ret (None, Some err)
          | None => ret (Some digest, None)
          end
      end
  end.

(** ** Properties *)

Lemma uint64_small x : 0 ≤ x < 2 ^ 64 → uint64 x = x.
Proof. intros Hx. unfold uint64. by apply Z.mod_small. Qed.

Lemma getMessage_refused {M} `{!ProtoMessage M} cas ctx digest (message : M) w :
  0 ≤ maximumMessageSizeBytes cas →
  0 ≤ sizeBytes digest < 2 ^ 63 →
  sizeBytes digest > maximumMessageSizeBytes cas →
  getMessage cas ctx digest message w
  = ((message, Some (too_large (sizeBytes digest) (maximumMessageSizeBytes cas))), w).
Proof.
  intros Hmax Hsize Hbig. unfold getMessage, GetSizeBytes.
  rewrite uint64_small by lia.
  destruct (Z.gtb_spec (sizeBytes digest) (maximumMessageSizeBytes cas)); [done|lia].
Qed.

Lemma getTyped_refused {M} `{!ProtoMessage M} cas ctx digest w :
  0 ≤ maximumMessageSizeBytes cas →
  0 ≤ sizeBytes digest < 2 ^ 63 →
  sizeBytes digest > maximumMessageSizeBytes cas →
  getTyped (M := M) cas ctx digest w
  = ((None, Some (too_large (sizeBytes digest) (maximumMessageSizeBytes cas))), w).
Proof.
  intros Hmax Hsize Hbig. unfold getTyped, bind. by rewrite getMessage_refused.
Qed.

(** What getMessage makes of what Get returned: the blob read to its
    end and decoded, or the error of Get or of the read. *)
Definition read_and_decode {M} `{!ProtoMessage M} (message : M)
    (got : Error + Z * Stream) : M * option Error :=
  match got with
  | inl err => (message, Some err)
  | inr (_, r) =>
      match final r with
      | Some err => (message, Some err)
      | None => proto_Unmarshal (concat (chunks r)) message
      end
  end.

Lemma getMessage_within {M} `{!ProtoMessage M} cas ctx digest (message : M) w :
  maximumMessageSizeBytes cas < 2 ^ 64 →
  0 ≤ sizeBytes digest ≤ maximumMessageSizeBytes cas →
  getMessage cas ctx digest message w
  = (read_and_decode message (ba_Get (blobAccess cas) ctx digest (backend w)).1,
     {| backend := (ba_Get (blobAccess cas) ctx digest (backend w)).2;
        dir := dir w; calls := calls w ++ [CallGet digest] |}).
Proof.
  intros Hmax Hsize. unfold getMessage, GetSizeBytes.
  rewrite uint64_small by lia.
  destruct (Z.gtb_spec (sizeBytes digest) (maximumMessageSizeBytes cas)); [lia|].
  unfold bind, call_Get, read_and_decode, ioutil_ReadAll. cbn.
  destruct ((ba_Get (blobAccess cas) ctx digest (backend w)).1) as [err|[n r]]; [done|].
  by destruct (final r).
Qed.

(** C7. With a maximum that is a uint64 and a digest whose size is a
    non-negative int64: when the size exceeds the maximum, getMessage,
    and with it GetAction, GetUncachedActionResult, GetCommand,
    GetDirectory and GetTree, fails with an InvalidArgument status and
    leaves the world as it was, so no call was made on the BlobAccess;
    when the size is within the maximum, getMessage makes one Get for
    the digest, and what it returns is the blob read to its end and
    decoded into the message (or the error of Get or of the read). *)
Theorem getMessage_size_bound {M} `{!ProtoMessage M} cas ctx digest (message : M) w :
  0 ≤ maximumMessageSizeBytes cas < 2 ^ 64 →
  0 ≤ sizeBytes digest < 2 ^ 63 →
  let refusal := too_large (sizeBytes digest) (maximumMessageSizeBytes cas) in
  (sizeBytes digest > maximumMessageSizeBytes cas →
     status_Code refusal = InvalidArgument
     ∧ getMessage cas ctx digest message w = ((message, Some refusal), w)
     ∧ GetAction cas ctx digest w = ((None, Some refusal), w)
     ∧ GetUncachedActionResult cas ctx digest w = ((None, Some refusal), w)
     ∧ GetCommand cas ctx digest w = ((None, Some refusal), w)
     ∧ GetDirectory cas ctx digest w = ((None, Some refusal), w)
     ∧ GetTree cas ctx digest w = ((None, Some refusal), w))
  ∧ (sizeBytes digest ≤ maximumMessageSizeBytes cas →
       let got := ba_Get (blobAccess cas) ctx digest (backend w) in
       calls (getMessage cas ctx digest message w).2 = calls w ++ [CallGet digest]
       ∧ backend (getMessage cas ctx digest message w).2 = got.2
       ∧ (getMessage cas ctx digest message w).1 = read_and_decode message got.1
       ∧ ∀ n r, got.1 = inr (n, r) → final r = None →
           (getMessage cas ctx digest message w).1
           = proto_Unmarshal (concat (chunks r)) message).
Proof.
  intros Hmax Hsize refusal. split.
  - intros Hbig. split; [done|]. split; [apply getMessage_refused; lia|].
    unfold GetAction, GetUncachedActionResult, GetCommand, GetDirectory, GetTree.
    repeat split; apply getTyped_refused; lia.
  - intros Hle got. rewrite getMessage_within by lia. cbn. repeat split.
    intros n r Hgot Hfin. fold got. rewrite Hgot. cbn. by rewrite Hfin.
Qed.

Lemma takeZ_take n l : takeZ n l = take (Z.to_nat n) l.
Proof.
  revert n. induction l as [|x l IH]; intros n; cbn.
  - by rewrite take_nil.
  - destruct (Z.leb_spec n 0) as [Hn|Hn].
    + by replace (Z.to_nat n) with 0%nat by lia.
    + replace (Z.to_nat n) with (S (Z.to_nat (n - 1))) by lia. cbn. by rewrite IH.
Qed.

Lemma dropZ_0 l : dropZ 0 l = l.
Proof. by destruct l. Qed.

(** Reading again the bytes counted in a first pass gives the bytes of
    the first pass, whatever was appended since. *)
Lemma takeZ_prefix_stable k l extra :
  takeZ (Z.of_nat (length (takeZ k l))) (l ++ extra) = takeZ k l.
Proof.
  rewrite !takeZ_take, Nat2Z.id, length_take.
  destruct (Nat.min_spec (Z.to_nat k) (length l)) as [[Hlt ->]|[Hge ->]].
  - rewrite take_app_le by lia. done.
  - rewrite take_app_le by lia. rewrite !take_ge by lia. done.
Qed.

(** C9. PutFile on a file that can be opened and read, to which other
    processes append [extra] between the digest pass and the upload:
    the one call on the BlobAccess is a Put whose reader is the section
    of the file from 0 of length [n], the count of bytes that went into
    the digest; what that reader yields is the first [n] bytes of the
    file as it then is, which are the bytes that were digested, without
    anything of [extra]; and its length is the size the digest declares. *)
Theorem PutFile_uploads_digested_prefix cas ctx env name parentDigest w f extra m :
  f_open_read DF name = None →
  f_read DF name = None →
  dir w !! name = Some f →
  env (dir w) !! name = Some {| f_mode := m; f_content := f_content f ++ extra |} →
  let digested := takeZ MaxInt64 (f_content f) in
  let n := Z.of_nat (length digested) in
  let digest := {| instanceName := instanceName parentDigest;
                   hashHex := digest_function parentDigest digested;
                   sizeBytes := n |} in
  let r := PutFile cas ctx env name parentDigest w in
  ∃ uploaded,
    calls r.2 = calls w ++ [CallPut digest (sizeBytes digest)
                              (newSectionReadCloser name 0 n) uploaded]
    ∧ final uploaded = None
    ∧ concat (chunks uploaded) = takeZ n (f_content f ++ extra)
    ∧ concat (chunks uploaded) = digested
    ∧ Z.of_nat (length (concat (chunks uploaded))) = sizeBytes digest
    ∧ r.1 = match (ba_Put (blobAccess cas) ctx digest (sizeBytes digest) uploaded
                     (backend w)).1 with
            | Some err => (None, Some err)
            | None => (Some digest, None)
            end.
Proof.
  intros Hopen Hread Hfile Henv digested n digest r.
  exists {| chunks := [takeZ n (f_content f ++ extra)]; final := None |}.
  assert (Hpre : takeZ n (f_content f ++ extra) = digested)
    by apply takeZ_prefix_stable.
  assert (Hr : r = PutFile cas ctx env name parentDigest w) by done.
  unfold PutFile, bind, directory_OpenRead in Hr. rewrite Hopen in Hr.
  unfold bind, gets in Hr. cbn in Hr. rewrite Hfile in Hr.
  rewrite bool_decide_true in Hr by done. cbn in Hr.
  unfold section_stream in Hr. cbn in Hr. rewrite Hread in Hr. cbn in Hr.
  unfold content_of in Hr. rewrite Hfile, Henv in Hr. cbn in Hr.
  rewrite dropZ_0, Z.add_0_l, dropZ_0 in Hr.
  change (DigestGenerator_Sum
            (DigestGenerator_Write (NewDigestGenerator parentDigest)
               (takeZ MaxInt64 (f_content f)))) with digest in Hr.
  fold digested in Hr. fold n in Hr.
  rewrite Hr. cbn [sizeBytes digest].
  destruct (ba_Put _ _ _ _ _ _).1; cbn; rewrite app_nil_r, Hpre; repeat split; done.
Qed.

Lemma file_Write_run wf chunk s :
  file_Write wf chunk s
  = match f_append DF wf (content_of (dir s) wf) chunk with
    | Some err => (Some err, s)
    | None =>
        (None, {| backend := backend s;
                  dir := alter (λ f, {| f_mode := f_mode f;
                                        f_content := f_content f ++ chunk |}) wf (dir s);
                  calls := calls s |})
    end.
Proof.
  unfold file_Write, bind, gets. cbn.
  by destruct (f_append DF wf (content_of (dir s) wf) chunk).
Qed.

(** Copying into an open file only appends to that file; a copy without
    error has appended every chunk. *)
Lemma io_Copy_file_spec wf cs fin s f :
  dir s !! wf = Some f →
  backend (io_Copy wf cs fin s).2 = backend s
  ∧ calls (io_Copy wf cs fin s).2 = calls s
  ∧ ∃ written,
      dir (io_Copy wf cs fin s).2
      = <[wf := {| f_mode := f_mode f; f_content := f_content f ++ written |}]> (dir s)
      ∧ ((io_Copy wf cs fin s).1 = None → fin = None ∧ written = concat cs).
Proof.
  revert s f. induction cs as [|c cs IH]; intros s f Hf.
  - cbn. repeat split. exists []. rewrite app_nil_r. split; [|done].
    symmetry. apply insert_id. by destruct f.
  - cbn [io_Copy]. unfold bind. rewrite file_Write_run.
    destruct (f_append DF wf (content_of (dir s) wf) c) as [err|].
    + cbn. repeat split. exists []. rewrite app_nil_r. split; [|done].
      symmetry. apply insert_id. by destruct f.
    + cbn [fst snd].
      set (s' := {| backend := backend s;
                    dir := alter (λ f, {| f_mode := f_mode f;
                                          f_content := f_content f ++ c |}) wf (dir s);
                    calls := calls s |}).
      set (f' := {| f_mode := f_mode f; f_content := f_content f ++ c |}).
      assert (Hf' : dir s' !! wf = Some f').
      { cbn. rewrite lookup_alter_eq, Hf. done. }
      destruct (IH s' f' Hf') as (Hb & Hc & written & Hd & Hok).
      rewrite Hb, Hc. repeat split. exists (c ++ written). split.
      * rewrite Hd. cbn. rewrite app_assoc.
        apply map_eq. intros k. destruct (decide (k = wf)) as [->|Hk].
        -- by rewrite !lookup_insert_eq.
        -- by rewrite !lookup_insert_ne, lookup_alter_ne.
      * intros Hnone. destruct (Hok Hnone) as [-> ->]. done.
Qed.

Definition mode_of (isExecutable : bool) : Z :=
  if isExecutable then mode_0555 else mode_0444.

Lemma directory_OpenAppend_run name perm s :
  directory_OpenAppend name (CreateExcl perm) s
  = match f_open_append DF name with
    | Some err => (inl err, s)
    | None =>
        if bool_decide (is_Some (dir s !! name)) then (inl (PlainErr "file exists"), s)
        else (inr name,
              {| backend := backend s;
                 dir := <[name := {| f_mode := perm; f_content := [] |}]> (dir s);
                 calls := calls s |})
    end.
Proof.
  unfold directory_OpenAppend. destruct (f_open_append DF name); [done|].
  unfold bind, gets. cbn. by destruct (bool_decide (is_Some (dir s !! name))).
Qed.

Lemma directory_Remove_run name s :
  directory_Remove name s
  = match f_remove DF name with
    | Some err => (Some err, s)
    | None =>
        if bool_decide (is_Some (dir s !! name))
        then (None, {| backend := backend s; dir := delete name (dir s);
                       calls := calls s |})
        else (Some (PlainErr "no such file or directory"), s)
    end.
Proof.
  unfold directory_Remove. destruct (f_remove DF name); [done|].
  unfold bind, gets. cbn. by destruct (bool_decide (is_Some (dir s !! name))).
Qed.

(** GetFile, step by step. *)
Lemma GetFile_run cas ctx digest name isExecutable w :
  GetFile cas ctx digest name isExecutable w
  = let opened := directory_OpenAppend name (CreateExcl (mode_of isExecutable)) w in
    match opened.1 with
    | inl err => (Some err, opened.2)
    | inr wf =>
        let got := call_Get cas ctx digest opened.2 in
        match got.1 with
        | inl err => (Some err, got.2)
        | inr (_, r) =>
            let copied := io_Copy wf (chunks r) (final r) got.2 in
            match copied.1 with
            | Some err => (Some err, (directory_Remove name copied.2).2)
            | None => (None, copied.2)
            end
        end
    end.
Proof.
  unfold GetFile, bind. fold (mode_of isExecutable). cbn zeta.
  destruct ((directory_OpenAppend name (CreateExcl (mode_of isExecutable)) w).1)
    as [err|wf]; [done|].
  destruct ((call_Get cas ctx digest _).1) as [err|[n r]]; [done|].
  by destruct ((io_Copy wf (chunks r) (final r) _).1).
Qed.

(** GetFile once the file has been created and Get has given a reader:
    a failed copy removes the file (when the removal itself succeeds), a
    copy without error leaves it, whole, with its mode. *)
Lemma GetFile_after_Get cas ctx digest name isExecutable w n r :
  f_open_append DF name = None →
  dir w !! name = None →
  (ba_Get (blobAccess cas) ctx digest (backend w)).1 = inr (n, r) →
  match (GetFile cas ctx digest name isExecutable w).1 with
  | Some err =>
      f_remove DF name = None →
      dir (GetFile cas ctx digest name isExecutable w).2 !! name = None
  | None =>
      final r = None
      ∧ dir (GetFile cas ctx digest name isExecutable w).2 !! name
        = Some {| f_mode := mode_of isExecutable; f_content := concat (chunks r) |}
  end.
Proof.
  intros Hopen Hfree Hget. rewrite GetFile_run, directory_OpenAppend_run, Hopen, Hfree.
  rewrite bool_decide_false by (by intros [? ?]). cbn zeta. cbn [fst snd].
  unfold call_Get. cbn [fst snd backend dir calls]. rewrite Hget.
  set (s1 := {| backend := (ba_Get (blobAccess cas) ctx digest (backend w)).2;
                dir := <[name := {| f_mode := mode_of isExecutable; f_content := [] |}]>
                         (dir w);
                calls := calls w ++ [CallGet digest] |}).
  destruct (io_Copy_file_spec name (chunks r) (final r) s1
              {| f_mode := mode_of isExecutable; f_content := [] |})
    as (Hb & Hc & written & Hd & Hok); [apply lookup_insert_eq|].
  destruct ((io_Copy name (chunks r) (final r) s1).1) as [err|] eqn:Hcopy; cbn [fst snd].
  - intros Hrm. rewrite directory_Remove_run, Hrm, Hd, lookup_insert_eq.
    rewrite bool_decide_true by done. cbn. apply lookup_delete_eq.
  - destruct (Hok eq_refl) as [Hfin ->]. split; [done|].
    rewrite Hd. by rewrite lookup_insert_eq.
Qed.

(** C10 fails on the path where Get returns an error: GetFile has
    created the file and returns the error of Get at once, and the
    empty file stays in the directory under the requested name. *)
Theorem GetFile_Get_error_leaves_file cas ctx digest name isExecutable w err :
  f_open_append DF name = None →
  dir w !! name = None →
  (ba_Get (blobAccess cas) ctx digest (backend w)).1 = inl err →
  (GetFile cas ctx digest name isExecutable w).1 = Some err
  ∧ dir (GetFile cas ctx digest name isExecutable w).2 !! name
    = Some {| f_mode := mode_of isExecutable; f_content := [] |}.
Proof.
  intros Hopen Hfree Hget. rewrite GetFile_run, directory_OpenAppend_run, Hopen, Hfree.
  rewrite bool_decide_false by (by intros [? ?]). cbn zeta. cbn [fst snd].
  unfold call_Get. cbn [fst snd backend dir calls]. rewrite Hget. cbn.
  split; [done|]. apply lookup_insert_eq.
Qed.

(** ** Storing blobs and messages *)

(** [proto.Marshal]. *)
Class ProtoMarshal (M : Type) := { proto_Marshal : M → Error + bytes }.

(** What [ioutil.NopCloser(bytes.NewBuffer(data))] yields: the data, then
    EOF. *)
Definition bytes_NewBuffer (data : bytes) : Stream :=
  {| chunks := [data]; final := None |}.

(** putBlob talks to the BlobAccess only: it is a computation on the
    state of the backend. Writing into the digest generator, a hash,
    does not fail. *)
Definition putBlob (cas : blobAccessContentAddressableStorage W) (ctx : Context)
    (data : bytes) (parentDigest : Digest) : State W (option Digest * option Error) :=
  let digestGenerator := NewDigestGenerator parentDigest in
  let digestGenerator := DigestGenerator_Write digestGenerator data in
  let digest := DigestGenerator_Sum digestGenerator in
  err <- ba_Put (blobAccess cas) ctx digest (GetSizeBytes digest) (bytes_NewBuffer data) ;;
  match err with
  | Some err => ret (None, Some err)
  | None => ret (Some digest, None)
  end.

Definition putMessage {M} `{!ProtoMarshal M}
    (cas : blobAccessContentAddressableStorage W) (ctx : Context) (message : M)
    (parentDigest : Digest) : State W (option Digest * option Error) :=
  match proto_Marshal message with
  | inl err => ret (None, Some err)
  | inr data => putBlob cas ctx data parentDigest
  end.

Definition PutLog (cas : blobAccessContentAddressableStorage W) (ctx : Context)
    (log : bytes) (parentDigest : Digest) : State W (option Digest * option Error) :=
  putBlob cas ctx log parentDigest.

Context `{!ProtoMarshal Tree, !ProtoMarshal UncachedActionResult}.

Definition PutTree := putMessage (M := Tree).
Definition PutUncachedActionResult := putMessage (M := UncachedActionResult).

(** ** Further properties *)

(** A backend gives back what was put: after a Put of a reader that ends
    in EOF has returned nil, a Get of the same digest gives a reader that
    yields the same bytes. *)
Definition read_your_writes (ba : BlobAccess W) : Prop :=
  ∀ ctx ctx' d size up st,
    final up = None →
    (ba_Put ba ctx d size up st).1 = None →
    ∃ n r, (ba_Get ba ctx' d (ba_Put ba ctx d size up st).2).1 = inr (n, r)
           ∧ final r = None
           ∧ concat (chunks r) = concat (chunks up).

(** X13. A digest of negative size is refused like one that is too
    large: converted to uint64 its size exceeds every maximum below 2^63,
    and getMessage fails with InvalidArgument without a call on the
    BlobAccess. *)
Theorem getMessage_refuses_negative_size {M} `{!ProtoMessage M} cas ctx digest
    (message : M) w :
  0 ≤ maximumMessageSizeBytes cas < 2 ^ 63 →
  - 2 ^ 63 ≤ sizeBytes digest < 0 →
  getMessage cas ctx digest message w
  = ((message, Some (too_large (sizeBytes digest) (maximumMessageSizeBytes cas))), w)
  ∧ status_Code (too_large (sizeBytes digest) (maximumMessageSizeBytes cas))
    = InvalidArgument.
Proof.
  intros Hmax Hsize. split; [|done]. unfold getMessage, GetSizeBytes.
  assert (Hwrap : uint64 (sizeBytes digest) = sizeBytes digest + 2 ^ 64).
  { unfold uint64. symmetry. apply Z.mod_unique_pos with (q := -1); lia. }
  rewrite Hwrap.
  destruct (Z.gtb_spec (sizeBytes digest + 2 ^ 64) (maximumMessageSizeBytes cas));
    [done|lia].
Qed.

(** X14. GetFile never overwrites: when the name is taken (or the file
    cannot be created), it returns an error and leaves the world as it
    was: the file that was there is untouched and nothing is asked of the
    BlobAccess. *)
Theorem GetFile_refuses_taken_name cas ctx digest name isExecutable w :
  is_Some (f_open_append DF name) ∨ is_Some (dir w !! name) →
  ∃ err, GetFile cas ctx digest name isExecutable w = (Some err, w).
Proof.
  intros Htaken. rewrite GetFile_run, directory_OpenAppend_run. cbn zeta.
  destruct (f_open_append DF name) as [err|]; [by exists err|].
  destruct Htaken as [[? ?]|Hthere]; [done|].
  rewrite bool_decide_true by done. by eexists.
Qed.

Lemma io_Copy_file_no_faults wf cs fin s :
  (∀ written chunk, f_append DF wf written chunk = None) →
  (io_Copy wf cs fin s).1 = fin.
Proof.
  intros Hok. revert s. induction cs as [|c cs IH]; intros s; [done|].
  cbn [io_Copy]. unfold bind. rewrite file_Write_run, Hok. cbn [fst snd]. apply IH.
Qed.

Lemma io_Copy_file_no_faults_dir wf cs fin s f :
  (∀ written chunk, f_append DF wf written chunk = None) →
  dir s !! wf = Some f →
  dir (io_Copy wf cs fin s).2
  = <[wf := {| f_mode := f_mode f; f_content := f_content f ++ concat cs |}]> (dir s).
Proof.
  intros Hok. revert s f. induction cs as [|c cs IH]; intros s f Hf.
  - cbn. rewrite app_nil_r. symmetry. apply insert_id. by destruct f.
  - cbn [io_Copy]. unfold bind. rewrite file_Write_run, Hok. cbn [fst snd].
    rewrite (IH _ {| f_mode := f_mode f; f_content := f_content f ++ c |}).
    + cbn. rewrite app_assoc. apply map_eq. intros k.
      destruct (decide (k = wf)) as [->|Hk].
      * by rewrite !lookup_insert_eq.
      * by rewrite !lookup_insert_ne, lookup_alter_ne.
    + cbn. by rewrite lookup_alter_eq, Hf.
Qed.

(** GetFile once the file has been created and Get has given a reader. *)
Lemma GetFile_copying cas ctx digest name isExecutable w n r :
  f_open_append DF name = None →
  dir w !! name = None →
  (ba_Get (blobAccess cas) ctx digest (backend w)).1 = inr (n, r) →
  let s1 := {| backend := (ba_Get (blobAccess cas) ctx digest (backend w)).2;
               dir := <[name := {| f_mode := mode_of isExecutable; f_content := [] |}]>
                        (dir w);
               calls := calls w ++ [CallGet digest] |} in
  GetFile cas ctx digest name isExecutable w
  = match (io_Copy name (chunks r) (final r) s1).1 with
    | Some err =>
        (Some err, (directory_Remove name (io_Copy name (chunks r) (final r) s1).2).2)
    | None => (None, (io_Copy name (chunks r) (final r) s1).2)
    end.
Proof.
  intros Hopen Hfree Hget s1. rewrite GetFile_run, directory_OpenAppend_run, Hopen, Hfree.
  rewrite bool_decide_false by (by intros [? ?]). cbn zeta. cbn [fst snd].
  unfold call_Get. cbn [fst snd backend dir calls]. by rewrite Hget.
Qed.

(** GetFile on a free name, with a reader that reads to EOF and a file
    that takes every write, step by step. *)
Lemma GetFile_whole_blob_run cas ctx digest name isExecutable w n r :
  f_open_append DF name = None →
  (∀ written chunk, f_append DF name written chunk = None) →
  dir w !! name = None →
  (ba_Get (blobAccess cas) ctx digest (backend w)).1 = inr (n, r) →
  final r = None →
  GetFile cas ctx digest name isExecutable w
  = (None,
     {| backend := (ba_Get (blobAccess cas) ctx digest (backend w)).2;
        dir := <[name := {| f_mode := mode_of isExecutable;
                            f_content := concat (chunks r) |}]> (dir w);
        calls := calls w ++ [CallGet digest] |}).
Proof.
  intros Hopen Happend Hfree Hget Hfin.
  rewrite (GetFile_copying _ _ _ _ _ _ n r) by done. cbn zeta.
  set (s1 := {| backend := _; dir := _; calls := _ |}).
  destruct (io_Copy_file_spec name (chunks r) (final r) s1
              {| f_mode := mode_of isExecutable; f_content := [] |})
    as (Hb & Hc & written & Hd & Hok); [apply lookup_insert_eq|].
  assert (Hcopy : (io_Copy name (chunks r) (final r) s1).1 = None).
  { rewrite <- Hfin. by apply io_Copy_file_no_faults. }
  rewrite Hcopy. destruct (Hok Hcopy) as [_ ->].
  f_equal. destruct ((io_Copy name (chunks r) (final r) s1).2) as [b' d' c'].
  cbn in Hb, Hc, Hd. subst b' c' d'. cbn. f_equal.
  by rewrite insert_insert_eq.
Qed.

(** X15. GetFile on a free name, with a reader from Get that reads to EOF
    and a file that takes every write: it returns nil after one Get; the
    new file holds exactly the bytes of the reader, with mode 0555 for an
    executable and 0444 otherwise, and every other entry of the directory
    is as it was. *)
Theorem GetFile_writes_whole_blob cas ctx digest name isExecutable w n r :
  f_open_append DF name = None →
  (∀ written chunk, f_append DF name written chunk = None) →
  dir w !! name = None →
  (ba_Get (blobAccess cas) ctx digest (backend w)).1 = inr (n, r) →
  final r = None →
  (GetFile cas ctx digest name isExecutable w).1 = None
  ∧ dir (GetFile cas ctx digest name isExecutable w).2 !! name
    = Some {| f_mode := if isExecutable then mode_0555 else mode_0444;
              f_content := concat (chunks r) |}
  ∧ (∀ other, other ≠ name →
       dir (GetFile cas ctx digest name isExecutable w).2 !! other = dir w !! other)
  ∧ calls (GetFile cas ctx digest name isExecutable w).2 = calls w ++ [CallGet digest].
Proof.
  intros Hopen Happend Hfree Hget Hfin.
  rewrite (GetFile_whole_blob_run _ _ _ _ _ _ n r) by done. cbn.
  split; [done|]. split; [by rewrite lookup_insert_eq|]. split; [|done].
  intros other Hother. by rewrite lookup_insert_ne.
Qed.

(** X16. No traces on a failed copy. When GetFile has created the file
    and the copy fails, and the directory lets the file be removed, GetFile
    returns the error with the directory exactly as it was before the
    call. *)
Theorem GetFile_failed_copy_leaves_no_trace cas ctx digest name isExecutable w n r err :
  f_open_append DF name = None →
  f_remove DF name = None →
  dir w !! name = None →
  (ba_Get (blobAccess cas) ctx digest (backend w)).1 = inr (n, r) →
  (GetFile cas ctx digest name isExecutable w).1 = Some err →
  dir (GetFile cas ctx digest name isExecutable w).2 = dir w.
Proof.
  intros Hopen Hremove Hfree Hget.
  rewrite (GetFile_copying _ _ _ _ _ _ n r) by done. cbn zeta.
  set (s1 := {| backend := _; dir := _; calls := _ |}).
  destruct (io_Copy_file_spec name (chunks r) (final r) s1
              {| f_mode := mode_of isExecutable; f_content := [] |})
    as (Hb & Hc & written & Hd & Hok); [apply lookup_insert_eq|].
  destruct ((io_Copy name (chunks r) (final r) s1).1) as [e|]; [|done].
  cbn [fst snd]. intros _. rewrite directory_Remove_run, Hremove, Hd.
  rewrite lookup_insert_eq, bool_decide_true by done. cbn.
  rewrite insert_insert_eq, delete_insert_eq. by apply delete_id.
Qed.

(** X17. The error of the cleanup is dropped. When the reader from Get
    breaks with [err] after some chunks and the directory refuses to
    remove the file, GetFile still returns [err], not the error of the
    removal, and the file stays behind with the bytes copied so far. *)
Theorem GetFile_drops_Remove_error cas ctx digest name isExecutable w n r err err' :
  f_open_append DF name = None →
  (∀ written chunk, f_append DF name written chunk = None) →
  f_remove DF name = Some err' →
  dir w !! name = None →
  (ba_Get (blobAccess cas) ctx digest (backend w)).1 = inr (n, r) →
  final r = Some err →
  (GetFile cas ctx digest name isExecutable w).1 = Some err
  ∧ dir (GetFile cas ctx digest name isExecutable w).2 !! name
    = Some {| f_mode := if isExecutable then mode_0555 else mode_0444;
              f_content := concat (chunks r) |}.
Proof.
  intros Hopen Happend Hremove Hfree Hget Hfin.
  rewrite (GetFile_copying _ _ _ _ _ _ n r) by done. cbn zeta.
  set (s1 := {| backend := _; dir := _; calls := _ |}).
  assert (Hcopy : (io_Copy name (chunks r) (final r) s1).1 = Some err).
  { rewrite <- Hfin. by apply io_Copy_file_no_faults. }
  rewrite Hcopy. cbn [fst snd]. split; [done|].
  rewrite directory_Remove_run, Hremove. cbn [snd].
  rewrite (io_Copy_file_no_faults_dir name (chunks r) (final r) s1
             {| f_mode := mode_of isExecutable; f_content := [] |} Happend)
    by apply lookup_insert_eq.
  by rewrite lookup_insert_eq.
Qed.

(** X18. A file that cannot be opened or read is not uploaded: PutFile
    returns the error and has asked nothing of the BlobAccess. *)
Theorem PutFile_unreadable_file cas ctx env name parentDigest w :
  dir w !! name = None ∨ is_Some (f_open_read DF name) ∨ is_Some (f_read DF name) →
  ∃ err,
    (PutFile cas ctx env name parentDigest w).1 = (None, Some err)
    ∧ backend (PutFile cas ctx env name parentDigest w).2 = backend w
    ∧ calls (PutFile cas ctx env name parentDigest w).2 = calls w.
Proof.
  intros Hbad.
  assert (∃ err, PutFile cas ctx env name parentDigest w = ((None, Some err), w))
    as [err ->]; [|by exists err].
  unfold PutFile, bind, directory_OpenRead.
  destruct (f_open_read DF name) as [err|] eqn:Hopen; [by exists err|].
  unfold bind, gets. cbn [fst snd].
  destruct (dir w !! name) as [f|] eqn:Hfile.
  - rewrite bool_decide_true by done. cbn [fst snd ret].
    destruct Hbad as [?|[[? ?]|[err Hread]]]; [done..|].
    unfold section_stream. cbn [fst snd sr_r io_NewSectionReader].
    rewrite Hread. cbn. by exists err.
  - rewrite bool_decide_false by (by intros [? ?]). cbn. by eexists.
Qed.

(** PutFile on a file that can be opened and read, step by step. *)
Lemma PutFile_run cas ctx env name parentDigest w f :
  f_open_read DF name = None →
  f_read DF name = None →
  dir w !! name = Some f →
  let digested := takeZ MaxInt64 (f_content f) in
  let n := Z.of_nat (length digested) in
  let digest := {| instanceName := instanceName parentDigest;
                   hashHex := digest_function parentDigest digested;
                   sizeBytes := n |} in
  let rc := newSectionReadCloser name 0 n in
  let uploaded := section_stream (env (dir w)) (sr_SectionReader rc) in
  let put := ba_Put (blobAccess cas) ctx digest n uploaded (backend w) in
  PutFile cas ctx env name parentDigest w
  = (match put.1 with
     | Some err => (None, Some err)
     | None => (Some digest, None)
     end,
     {| backend := put.2; dir := env (dir w);
        calls := calls w ++ [CallPut digest n rc uploaded] |}).
Proof.
  intros Hopen Hread Hfile. cbn zeta.
  unfold PutFile, bind, directory_OpenRead. rewrite Hopen.
  unfold bind, gets. cbn. rewrite Hfile.
  rewrite bool_decide_true by done. cbn.
  unfold section_stream. cbn. rewrite Hread. cbn.
  unfold content_of. rewrite Hfile. cbn.
  rewrite !dropZ_0, !Z.add_0_l.
  unfold GetSizeBytes, DigestGenerator_Sum, DigestGenerator_Write, NewDigestGenerator.
  cbn.
  by destruct (ba_Put _ _ _ _ _ _).1.
Qed.

(** X19. Round trip of a message. Over a backend that gives back what
    was put, with a codec that decodes what it encoded: when PutTree has
    returned a digest, and the size of the encoding is within the maximum,
    GetTree of that digest returns the tree. *)
Theorem PutTree_then_GetTree cas ctx ctx' (tree : Tree) parentDigest st w digest :
  read_your_writes (blobAccess cas) →
  (∀ data, proto_Marshal tree = inr data → proto_Unmarshal data zero = (tree, None)) →
  (PutTree cas ctx tree parentDigest st).1 = (Some digest, None) →
  backend w = (PutTree cas ctx tree parentDigest st).2 →
  sizeBytes digest ≤ maximumMessageSizeBytes cas < 2 ^ 64 →
  (GetTree cas ctx' digest w).1 = (Some tree, None).
Proof.
  intros Hryw Hcodec Hput Hbackend Hsize.
  unfold PutTree, putMessage in Hput, Hbackend.
  destruct (proto_Marshal tree) as [err|data] eqn:Hmarshal; [done|].
  unfold putBlob, bind in Hput, Hbackend. cbn zeta in Hput, Hbackend.
  set (d := DigestGenerator_Sum (DigestGenerator_Write (NewDigestGenerator parentDigest) data))
    in Hput, Hbackend.
  destruct ((ba_Put (blobAccess cas) ctx d (GetSizeBytes d) (bytes_NewBuffer data) st).1)
    as [err|] eqn:Hnil; [done|].
  unfold ret in Hput, Hbackend. cbn [fst snd] in Hput, Hbackend. injection Hput as <-.
  destruct (Hryw ctx ctx' d (GetSizeBytes d) (bytes_NewBuffer data) st eq_refl Hnil)
    as (n & r & Hget & Hfin & Hbytes).
  unfold GetTree, getTyped, bind. rewrite getMessage_within.
  - rewrite Hbackend, Hget. cbn. rewrite Hfin, Hbytes. cbn. rewrite app_nil_r.
    by rewrite (Hcodec data eq_refl).
  - lia.
  - split; [|lia]. unfold d. cbn. lia.
Qed.

(** X20. Round trip of a file. Over a backend that gives back what was
    put, in a directory without failures on the two files: when PutFile of
    one file has returned a digest (others may have appended to the file
    meanwhile), GetFile of that digest under a free name returns nil and
    the new file holds exactly the bytes that were digested. *)
Theorem PutFile_then_GetFile cas ctx ctx' env src dst parentDigest isExecutable
    w f extra m digest :
  read_your_writes (blobAccess cas) →
  f_open_read DF src = None →
  f_read DF src = None →
  dir w !! src = Some f →
  env (dir w) !! src = Some {| f_mode := m; f_content := f_content f ++ extra |} →
  (PutFile cas ctx env src parentDigest w).1 = (Some digest, None) →
  f_open_append DF dst = None →
  (∀ written chunk, f_append DF dst written chunk = None) →
  env (dir w) !! dst = None →
  (GetFile cas ctx' digest dst isExecutable (PutFile cas ctx env src parentDigest w).2).1
  = None
  ∧ dir (GetFile cas ctx' digest dst isExecutable
           (PutFile cas ctx env src parentDigest w).2).2 !! dst
    = Some {| f_mode := mode_of isExecutable;
              f_content := takeZ MaxInt64 (f_content f) |}.
Proof.
  intros Hryw Hopen Hread Hfile Henv Hput Happend Hwrite Hfree.
  rewrite (PutFile_run cas ctx env src parentDigest w f) in Hput |- * by done.
  cbn zeta in Hput |- *. cbn [fst] in Hput.
  set (digested := takeZ MaxInt64 (f_content f)) in *.
  set (n := Z.of_nat (length digested)) in *.
  set (d := {| instanceName := instanceName parentDigest;
               hashHex := digest_function parentDigest digested; sizeBytes := n |}) in *.
  set (uploaded := section_stream (env (dir w))
                     (sr_SectionReader (newSectionReadCloser src 0 n))) in *.
  assert (Hup : uploaded = {| chunks := [digested]; final := None |}).
  { unfold uploaded, section_stream. cbn. rewrite Hread. unfold content_of.
    rewrite Henv. cbn. rewrite dropZ_0. unfold n, digested.
    by rewrite takeZ_prefix_stable. }
  destruct ((ba_Put (blobAccess cas) ctx d n uploaded (backend w)).1) as [err|] eqn:Hnil;
    [done|].
  injection Hput as <-.
  destruct (Hryw ctx ctx' d n uploaded (backend w)) as (k & r & Hget & Hfin & Hbytes);
    [by rewrite Hup|done|].
  rewrite (GetFile_whole_blob_run cas ctx' d dst isExecutable _ k r); try done.
  cbn. split; [done|]. rewrite lookup_insert_eq, Hbytes, Hup. cbn.
  by rewrite app_nil_r.
Qed.

(** X21. Round trip of a log. Over a backend that gives back what was
    put: when PutLog has returned a digest, that digest declares the
    length of the log, and GetFile of it under a free name, in a directory
    that takes every write, returns nil and leaves a file that holds
    exactly the log. *)
Theorem PutLog_then_GetFile cas ctx ctx' log parentDigest st w digest name isExecutable :
  read_your_writes (blobAccess cas) →
  (PutLog cas ctx log parentDigest st).1 = (Some digest, None) →
  backend w = (PutLog cas ctx log parentDigest st).2 →
  f_open_append DF name = None →
  (∀ written chunk, f_append DF name written chunk = None) →
  dir w !! name = None →
  sizeBytes digest = Z.of_nat (length log)
  ∧ (GetFile cas ctx' digest name isExecutable w).1 = None
  ∧ dir (GetFile cas ctx' digest name isExecutable w).2 !! name
    = Some {| f_mode := if isExecutable then mode_0555 else mode_0444;
              f_content := log |}.
Proof.
  intros Hryw Hput Hbackend Hopen Hwrite Hfree.
  unfold PutLog, putBlob, bind in Hput, Hbackend. cbn zeta in Hput, Hbackend.
  set (d := DigestGenerator_Sum (DigestGenerator_Write (NewDigestGenerator parentDigest) log))
    in Hput, Hbackend.
  destruct ((ba_Put (blobAccess cas) ctx d (GetSizeBytes d) (bytes_NewBuffer log) st).1)
    as [err|] eqn:Hnil; [done|].
  unfold ret in Hput, Hbackend. cbn [fst snd] in Hput, Hbackend. injection Hput as <-.
  destruct (Hryw ctx ctx' d (GetSizeBytes d) (bytes_NewBuffer log) st eq_refl Hnil)
    as (n & r & Hget & Hfin & Hbytes).
  split; [done|].
  rewrite (GetFile_whole_blob_run cas ctx' d name isExecutable w n r); try done.
  - cbn. split; [done|]. rewrite lookup_insert_eq, Hbytes. cbn. by rewrite app_nil_r.
  - by rewrite Hbackend.
Qed.

End BlobCAS.

(** ** The code on the in-memory backend and directory *)

Example GetFile_keeps_file_on_success :
  let r := GetFile (gmap Digest bytes) no_faults cas_memory 0%nat d_hello "hello" true
             {| backend := {[ d_hello := hello ]}; dir := ∅; calls := [] |} in
  r.1 = None
  ∧ dir r.2 = {[ "hello" := {| f_mode := 365; f_content := hello |} ]}
  ∧ calls r.2 = [CallGet d_hello].
Proof. vm_compute. repeat split; reflexivity. Qed.

Example GetFile_removes_file_on_failed_copy :
  GetFile (gmap Digest bytes) no_faults
    {| blobAccess := flaky; maximumMessageSizeBytes := 4 |} 0%nat d_hello "hello" false
    w_empty
  = (Some (PlainErr "connection reset"),
     {| backend := ∅; dir := ∅; calls := [CallGet d_hello] |}).
Proof. by vm_compute. Qed.

Example GetFile_refuses_existing_name :
  GetFile (gmap Digest bytes) no_faults cas_memory 0%nat d_hello "stdout" false w_log
  = (Some (PlainErr "file exists"), w_log).
Proof. by vm_compute. Qed.

Example takeZ_dropZ_section :
  takeZ 3 (dropZ 1 hello) = [Byte.x65; Byte.x6c; Byte.x6c].
Proof. reflexivity. Qed.

Example uint64_of_negative : uint64 (-1) = 18446744073709551615.
Proof. reflexivity. Qed.

Lemma getMessage_size_bound_witness :
  @getMessage (gmap Digest bytes) bytes raw_message cas_memory 0%nat d_hello [] w_empty
  = (([], Some (StatusErr InvalidArgument
                  "Refusing to unmarshal message of size 5, as it exceeds the maximum size of 4")),
     w_empty)
  ∧ (@getMessage (gmap Digest bytes) bytes raw_message cas_memory 0%nat d_hell [] w_empty).1
    = ([], Some (StatusErr NotFound "Blob not found")).
Proof.
  split.
  - apply (@getMessage_size_bound (gmap Digest bytes) bytes bytes bytes bytes bytes
             raw_message raw_message raw_message raw_message raw_message
             bytes raw_message cas_memory 0%nat d_hello [] w_empty); cbn; lia.
  - apply (@getMessage_size_bound (gmap Digest bytes) bytes bytes bytes bytes bytes
             raw_message raw_message raw_message raw_message raw_message
             bytes raw_message cas_memory 0%nat d_hell [] w_empty); cbn; lia.
Defined.

Lemma PutFile_uploads_digested_prefix_witness :
  ∃ uploaded,
    calls (PutFile (gmap Digest bytes) no_faults (λ _ _, "8b1a9953c4611296a827abf8c47804d7")
             cas_memory 0%nat one_more_line "stdout" d_hell w_log).2
    = [CallPut d_hello 5 (newSectionReadCloser "stdout" 0 5) uploaded]
    ∧ concat (chunks uploaded) = hello.
Proof.
  destruct (PutFile_uploads_digested_prefix (gmap Digest bytes) no_faults
              (λ _ _, "8b1a9953c4611296a827abf8c47804d7")
              cas_memory 0%nat one_more_line "stdout" d_hell w_log
              {| f_mode := mode_0444; f_content := hello |} [Byte.x0a] mode_0444
              eq_refl eq_refl eq_refl eq_refl)
    as (uploaded & Hcalls & _ & _ & Hbytes & _).
  exists uploaded. split; [exact Hcalls|exact Hbytes].
Defined.

Lemma GetFile_Get_error_leaves_file_witness :
  (GetFile (gmap Digest bytes) no_faults cas_memory 0%nat d_hello "hello.txt" false
     w_empty).1 = Some (StatusErr NotFound "Blob not found")
  ∧ dir (GetFile (gmap Digest bytes) no_faults cas_memory 0%nat d_hello "hello.txt" false
           w_empty).2 !! "hello.txt"
    = Some {| f_mode := mode_0444; f_content := [] |}.
Proof.
  apply (GetFile_Get_error_leaves_file (gmap Digest bytes) no_faults cas_memory 0%nat
           d_hello "hello.txt" false w_empty (StatusErr NotFound "Blob not found"));
    reflexivity.
Defined.

(** The in-memory backend gives back what was put. *)
Lemma memory_read_your_writes : read_your_writes (gmap Digest bytes) memory.
Proof.
  intros ctx ctx' d size up st Hfin _. cbn. rewrite Hfin. cbn.
  rewrite lookup_insert_eq. eexists _, _. split; [done|]. split; [done|].
  cbn. by rewrite app_nil_r.
Qed.

(** Messages that are their own encoding, encoded. *)
Definition raw_marshal : ProtoMarshal bytes := {| proto_Marshal := inr |}.

Definition hell : bytes := [Byte.x48; Byte.x65; Byte.x6c; Byte.x6c].

(** A digest with a negative size, as a client may send it. *)
Definition d_negative : Digest :=
  {| instanceName := "main"; hashHex := "8b1a9953c4611296a827abf8c47804d7";
     sizeBytes := -1 |}.

(** A directory in which nothing can be removed. *)
Definition remove_refused : DirFaults :=
  {| f_open_append := λ _, None; f_open_read := λ _, None; f_read := λ _, None;
     f_append := λ _ _ _, None;
     f_remove := λ _, Some (PlainErr "operation not permitted") |}.

Definition cas_flaky : blobAccessContentAddressableStorage (gmap Digest bytes) :=
  {| blobAccess := flaky; maximumMessageSizeBytes := 4 |}.

Definition w_hello : World (gmap Digest bytes) :=
  {| backend := {[ d_hello := hello ]}; dir := ∅; calls := [] |}.

Example PutLog_then_GetFile_on_memory :
  let put := PutLog (gmap Digest bytes) (λ _ _, "8b1a9953c4611296a827abf8c47804d7")
               cas_memory 0%nat hello d_hell ∅ in
  let got := GetFile (gmap Digest bytes) no_faults cas_memory 0%nat d_hello "log" false
               {| backend := put.2; dir := ∅; calls := [] |} in
  put.1 = (Some d_hello, None)
  ∧ got.1 = None
  ∧ dir got.2 = {[ "log" := {| f_mode := mode_0444; f_content := hello |} ]}.
Proof. vm_compute. repeat split; reflexivity. Qed.

Lemma getMessage_refuses_negative_size_witness :
  @getMessage (gmap Digest bytes) bytes raw_message cas_memory 0%nat d_negative [] w_empty
  = (([], Some (StatusErr InvalidArgument
                  "Refusing to unmarshal message of size -1, as it exceeds the maximum size of 4")),
     w_empty).
Proof.
  apply (@getMessage_refuses_negative_size (gmap Digest bytes) bytes raw_message
           cas_memory 0%nat d_negative [] w_empty); cbn; lia.
Defined.

Lemma GetFile_refuses_taken_name_witness :
  ∃ err,
    GetFile (gmap Digest bytes) no_faults cas_memory 0%nat d_hello "stdout" false w_log
    = (Some err, w_log).
Proof.
  apply (GetFile_refuses_taken_name (gmap Digest bytes) no_faults cas_memory 0%nat
           d_hello "stdout" false w_log).
  right. by eexists.
Defined.

Lemma GetFile_writes_whole_blob_witness :
  (GetFile (gmap Digest bytes) no_faults cas_memory 0%nat d_hello "hello" true w_hello).1
  = None
  ∧ dir (GetFile (gmap Digest bytes) no_faults cas_memory 0%nat d_hello "hello" true
           w_hello).2 !! "hello"
    = Some {| f_mode := mode_0555; f_content := hello |}.
Proof.
  destruct (GetFile_writes_whole_blob (gmap Digest bytes) no_faults cas_memory 0%nat
              d_hello "hello" true w_hello 5 {| chunks := [hello]; final := None |})
    as (Hnil & Hfile & _); [vm_compute; reflexivity..|].
  split; [exact Hnil|exact Hfile].
Defined.

Lemma GetFile_failed_copy_leaves_no_trace_witness :
  dir (GetFile (gmap Digest bytes) no_faults cas_flaky 0%nat d_hello "hello" false
         w_empty).2 = ∅.
Proof.
  apply (GetFile_failed_copy_leaves_no_trace (gmap Digest bytes) no_faults cas_flaky
           0%nat d_hello "hello" false w_empty 5
           {| chunks := [[Byte.x48]]; final := Some (PlainErr "connection reset") |}
           (PlainErr "connection reset")); reflexivity.
Defined.

Lemma GetFile_drops_Remove_error_witness :
  (GetFile (gmap Digest bytes) remove_refused cas_flaky 0%nat d_hello "hello" false
     w_empty).1 = Some (PlainErr "connection reset")
  ∧ dir (GetFile (gmap Digest bytes) remove_refused cas_flaky 0%nat d_hello "hello" false
           w_empty).2 !! "hello"
    = Some {| f_mode := mode_0444; f_content := [Byte.x48] |}.
Proof.
  apply (GetFile_drops_Remove_error (gmap Digest bytes) remove_refused cas_flaky
           0%nat d_hello "hello" false w_empty 5
           {| chunks := [[Byte.x48]]; final := Some (PlainErr "connection reset") |}
           (PlainErr "connection reset") (PlainErr "operation not permitted"));
    reflexivity.
Defined.

Lemma PutFile_unreadable_file_witness :
  ∃ err,
    (PutFile (gmap Digest bytes) no_faults (λ _ _, "8b1a9953c4611296a827abf8c47804d7")
       cas_memory 0%nat one_more_line "stdout" d_hell w_empty).1 = (None, Some err)
    ∧ backend (PutFile (gmap Digest bytes) no_faults
                 (λ _ _, "8b1a9953c4611296a827abf8c47804d7")
                 cas_memory 0%nat one_more_line "stdout" d_hell w_empty).2 = ∅
    ∧ calls (PutFile (gmap Digest bytes) no_faults
               (λ _ _, "8b1a9953c4611296a827abf8c47804d7")
               cas_memory 0%nat one_more_line "stdout" d_hell w_empty).2 = [].
Proof.
  apply (PutFile_unreadable_file (gmap Digest bytes) no_faults
           (λ _ _, "8b1a9953c4611296a827abf8c47804d7")
           cas_memory 0%nat one_more_line "stdout" d_hell w_empty).
  left. reflexivity.
Defined.

Lemma PutTree_then_GetTree_witness :
  (@GetTree (gmap Digest bytes) bytes raw_message cas_memory 1%nat d_hell
     {| backend := (@PutTree (gmap Digest bytes)
                      (λ _ _, "4229d691b07b13341da53f17ab9f2416") bytes raw_marshal
                      cas_memory 0%nat hell d_hello ∅).2;
        dir := ∅; calls := [] |}).1
  = (Some hell, None).
Proof.
  apply (@PutTree_then_GetTree (gmap Digest bytes)
           (λ _ _, "4229d691b07b13341da53f17ab9f2416") bytes raw_message raw_marshal
           cas_memory 0%nat 1%nat hell d_hello ∅).
  - apply memory_read_your_writes.
  - intros data [= <-]. reflexivity.
  - reflexivity.
  - reflexivity.
  - cbn. lia.
Defined.

Lemma PutFile_then_GetFile_witness :
  dir (GetFile (gmap Digest bytes) no_faults cas_memory 1%nat d_hello "copy" false
         (PutFile (gmap Digest bytes) no_faults
            (λ _ _, "8b1a9953c4611296a827abf8c47804d7")
            cas_memory 0%nat one_more_line "stdout" d_hell w_log).2).2 !! "copy"
  = Some {| f_mode := mode_0444; f_content := hello |}.
Proof.
  apply (PutFile_then_GetFile (gmap Digest bytes) no_faults
           (λ _ _, "8b1a9953c4611296a827abf8c47804d7")
           cas_memory 0%nat 1%nat one_more_line "stdout" "copy" d_hell false w_log
           {| f_mode := mode_0444; f_content := hello |} [Byte.x0a] mode_0444 d_hello);
    try reflexivity.
  apply memory_read_your_writes.
Defined.

Lemma PutLog_then_GetFile_witness :
  dir (GetFile (gmap Digest bytes) no_faults cas_memory 1%nat d_hello "log" false
         {| backend := (PutLog (gmap Digest bytes)
                          (λ _ _, "8b1a9953c4611296a827abf8c47804d7")
                          cas_memory 0%nat hello d_hell ∅).2;
            dir := ∅; calls := [] |}).2 !! "log"
  = Some {| f_mode := mode_0444; f_content := hello |}.
Proof.
  apply (PutLog_then_GetFile (gmap Digest bytes) no_faults
           (λ _ _, "8b1a9953c4611296a827abf8c47804d7")
           cas_memory 0%nat 1%nat hello d_hell ∅
           {| backend := (PutLog (gmap Digest bytes)
                            (λ _ _, "8b1a9953c4611296a827abf8c47804d7")
                            cas_memory 0%nat hello d_hell ∅).2;
              dir := ∅; calls := [] |}
           d_hello "log" false); try reflexivity.
  apply memory_read_your_writes.
Defined.

End BlobCAS.
